(** * Fiber coding challenge: the scraper (challenge-2) and the dump loader (challenge-1)

    A shallow embedding of [src/challenge-2/challenge.ts] and
    [src/challenge-1/challenge.ts].  Both programs are event-driven glue
    around library streams and promises, so each function is embedded as
    the state machine its handlers implement: a state record for the
    variables the closures capture, one transition per registered
    handler, and a run over the sequence of events the libraries deliver
    (JavaScript runs every handler to completion before the next one
    starts, so an execution is a list of events). *)

From Stdlib Require Import ZArith String Ascii List Lia.
From stdpp Require Import base list strings gmap.
Import ListNotations.
Local Open Scope string_scope.
Local Open Scope list_scope.

(** ** Errors and promises *)

(** The values a promise of these programs is rejected with. *)
Inductive error : Type :=
  | Failed_to_get (url : string) (statusCode : Z)
      (* new Error(`Failed to get '${url}' (${response.statusCode})`) *)
  | External (message : string).
      (* an error object handed over by a library or by the runtime *)

Module Promise.

Inductive t (A : Type) : Type :=
  | Pending
  | Fulfilled (v : A)
  | Rejected (e : error).
Arguments Pending {A}.
Arguments Fulfilled {A} v.
Arguments Rejected {A} e.

(** [resolve] and [reject] of [new Promise((resolve, reject) => ...)]:
    only the first call settles the promise, later calls do nothing. *)
Definition resolve {A} (v : A) (p : t A) : t A :=
  match p with Pending => Fulfilled v | _ => p end.

Definition reject {A} (e : error) (p : t A) : t A :=
  match p with Pending => Rejected e | _ => p end.

Definition settled {A} (p : t A) : bool :=
  match p with Pending => false | _ => true end.

Definition fulfilled {A} (p : t A) : bool :=
  match p with Fulfilled _ => true | _ => false end.

Definition rejected {A} (p : t A) : bool :=
  match p with Rejected _ => true | _ => false end.

(** The state behind [Promise.all(ps)] for [n] input promises: the
    result array with one slot per input position, the count of slots
    still missing, and the aggregate promise. *)
Record all_state (A : Type) : Type := mkAll {
  values : list (option A);
  remaining : nat;
  aggregate : t (list (option A))
}.
Arguments mkAll {A}.
Arguments values {A}.
Arguments remaining {A}.
Arguments aggregate {A}.

Definition all_init {A} (n : nat) : all_state A :=
  {| values := replicate n None;
     remaining := n;
     aggregate := if Nat.eqb n 0 then Fulfilled [] else Pending |}.

(** The slots of the result array that are still empty. *)
Fixpoint holes {A} (vs : list (option A)) : nat :=
  match vs with
  | [] => 0
  | None :: vs' => S (holes vs')
  | Some _ :: vs' => holes vs'
  end.

(** Input promise number [i] settles; [ps] holds what each input
    promise eventually settles to ([Pending]: it never does).  A
    fulfilment stores the value at the promise's own position. *)
Definition all_settle {A} (ps : list (t A)) (st : all_state A) (i : nat)
  : all_state A :=
  match ps !! i with
  | Some (Rejected e) =>
      mkAll (values st) (remaining st) (reject e (aggregate st))
  | Some (Fulfilled v) =>
      match values st !! i with
      | Some None =>
          let values' := <[i := Some v]> (values st) in
          let remaining' := Nat.pred (remaining st) in
          mkAll values' remaining'
                (if Nat.eqb remaining' 0
                 then resolve values' (aggregate st)
                 else aggregate st)
      | _ => st
      end
  | _ => st
  end.

(** [Promise.all(ps)], the input promises settling in the order [order]
    (a list of positions). *)
Definition all {A} (ps : list (t A)) (order : list nat)
  : t (list (option A)) :=
  aggregate (fold_left (all_settle ps) order (all_init (length ps))).

(** What holds of the state of [Promise.all] while inputs that are all
    fulfilled, with the values [xs], settle one after the other. *)
Definition all_inv {A} (xs : list A) (st : all_state A) : Prop :=
  length (values st) = length xs
  /\ (forall j v, values st !! j = Some (Some v) -> xs !! j = Some v)
  /\ remaining st = holes (values st)
  /\ aggregate st
     = if Nat.eqb (remaining st) 0 then Fulfilled (values st) else Pending.

(** The aggregate is rejected with the error of one of the inputs. *)
Definition rejected_by_input {A} (ps : list (t A))
           (p : t (list (option A))) : Prop :=
  exists j e', ps !! j = Some (Rejected e') /\ p = Rejected e'.

(** What holds of the state of [Promise.all] while input [i] is one that
    gets rejected: its slot stays empty, so the aggregate is never
    fulfilled. *)
Definition rej_inv {A} (ps : list (t A)) (i : nat) (st : all_state A) : Prop :=
  values st !! i = Some None
  /\ remaining st = holes (values st)
  /\ (aggregate st = Pending \/ rejected_by_input ps (aggregate st)).

End Promise.

Import Promise.

(** ** challenge-2: the scraper *)

Module Scraper.

(** *** Data model (the interfaces of the source) *)

(** [interface Company].  A field read from a row that has no such
    column is [undefined]; that is [None] here. *)
Record Company : Type := mkCompany {
  company_name : option string;
  company_url : option string
}.

Record Founder : Type := mkFounder { founder_name : string }.

Record Job : Type := mkJob { job_title : string; job_location : string }.

Record CompanyData : Type := mkCompanyData {
  name : string;
  founded : string;
  description : string;
  teamSize : Z;
  jobs : list Job;
  founders : list Founder
}.

(** *** parseCSV *)

(** With [headers: true] the CSV parser hands every data row over as an
    object keyed by the header cells. *)
Abbreviation CsvRow := (gmap string string).

(** What the two streams of
    [fs.createReadStream(filePath).pipe(csv.parse({ headers: true }))]
    can emit.  The three handlers of [parseCSV] are registered on the
    stream that [pipe] returns, which is the parser. *)
Inductive csv_event : Type :=
  | FileError (e : error)    (* 'error' on the file read stream *)
  | Data (row : CsvRow)      (* 'data' on the parser *)
  | End                      (* 'end' on the parser *)
  | ParseError (e : error).  (* 'error' on the parser *)

Record parse_state : Type := mkParse {
  companies : list Company;
  parsed : Promise.t (list Company);
  uncaught : option error
}.

Definition parse_init : parse_state :=
  {| companies := []; parsed := Pending; uncaught := None |}.

Definition company_of_row (row : CsvRow) : Company :=
  {| company_name := row !! "Company Name"; company_url := row !! "YC URL" |}.

Definition parse_step (st : parse_state) (ev : csv_event) : parse_state :=
  match uncaught st with
  | Some _ => st   (* the process is gone *)
  | None =>
      match ev with
      | Data row =>
          mkParse (companies st ++ [company_of_row row]) (parsed st) None
      | End =>
          mkParse (companies st) (resolve (companies st) (parsed st)) None
      | ParseError e =>
          mkParse (companies st) (reject e (parsed st)) None
      | FileError e =>
          (* no 'error' listener on the read stream: the emitter throws *)
          mkParse (companies st) (parsed st) (Some e)
      end
  end.

Definition parse_run (evs : list csv_event) : parse_state :=
  fold_left parse_step evs parse_init.

(** The promise [parseCSV(filePath)] returns, for a file whose streams
    deliver [evs]. *)
Definition parseCSV (evs : list csv_event) : Promise.t (list Company) :=
  parsed (parse_run evs).

(** The events of a file that opens and parses: its data rows, then the end. *)
Definition csv_stream (rows : list CsvRow) : list csv_event :=
  map Data rows ++ [End].

(** *** scrapeCompanyPage *)

(** Text is held as the bytes of its UTF-8 encoding.  The white space
    that [String.prototype.trim] and [parseInt] strip is the WhiteSpace
    and LineTerminator of ECMAScript: tab, line feed, vertical tab, form
    feed, carriage return and space, which take one byte, U+00A0, which
    takes two, and U+1680, U+2000 to U+200A, U+2028, U+2029, U+202F,
    U+205F, U+3000 and U+FEFF, which take three. *)
Definition isWhiteSpace1 (c : ascii) : bool :=
  let n := nat_of_ascii c in
  (Nat.leb 9 n && Nat.leb n 13) || Nat.eqb n 32.

Definition isWhiteSpace2 (c1 c2 : ascii) : bool :=
  Nat.eqb (nat_of_ascii c1) 194 && Nat.eqb (nat_of_ascii c2) 160.

Definition isWhiteSpace3 (c1 c2 c3 : ascii) : bool :=
  let a := nat_of_ascii c1 in
  let b := nat_of_ascii c2 in
  let c := nat_of_ascii c3 in
  (Nat.eqb a 225 && Nat.eqb b 154 && Nat.eqb c 128)
  || (Nat.eqb a 226 && Nat.eqb b 128
      && ((Nat.leb 128 c && Nat.leb c 138)
          || Nat.eqb c 168 || Nat.eqb c 169 || Nat.eqb c 175))
  || (Nat.eqb a 226 && Nat.eqb b 129 && Nat.eqb c 159)
  || (Nat.eqb a 227 && Nat.eqb b 128 && Nat.eqb c 128)
  || (Nat.eqb a 239 && Nat.eqb b 187 && Nat.eqb c 191).

(** What is left of [s] after the white-space character it starts with,
    if it starts with one. *)
Definition space_prefix (s : string) : option string :=
  match s with
  | EmptyString => None
  | String c1 r1 =>
      if isWhiteSpace1 c1 then Some r1
      else
        match r1 with
        | EmptyString => None
        | String c2 r2 =>
            if isWhiteSpace2 c1 c2 then Some r2
            else
              match r2 with
              | EmptyString => None
              | String c3 r3 =>
                  if isWhiteSpace3 c1 c2 c3 then Some r3 else None
              end
        end
  end.

Fixpoint trimStart (s : string) : string :=
  match s with
  | EmptyString => EmptyString
  | String c1 r1 =>
      if isWhiteSpace1 c1 then trimStart r1
      else
        match r1 with
        | EmptyString => s
        | String c2 r2 =>
            if isWhiteSpace2 c1 c2 then trimStart r2
            else
              match r2 with
              | EmptyString => s
              | String c3 r3 =>
                  if isWhiteSpace3 c1 c2 c3 then trimStart r3 else s
              end
        end
  end.

(** A text of white space only (the empty text included). *)
Fixpoint isBlank (s : string) : bool :=
  match s with
  | EmptyString => true
  | String c1 r1 =>
      if isWhiteSpace1 c1 then isBlank r1
      else
        match r1 with
        | EmptyString => false
        | String c2 r2 =>
            if isWhiteSpace2 c1 c2 then isBlank r2
            else
              match r2 with
              | EmptyString => false
              | String c3 r3 =>
                  if isWhiteSpace3 c1 c2 c3 then isBlank r3 else false
              end
        end
  end.

(** The text without the white space it ends with: what remains from
    the first position on from which everything is white space is cut. *)
Fixpoint trimEnd (s : string) : string :=
  match s with
  | EmptyString => EmptyString
  | String c s' => if isBlank s then EmptyString else String c (trimEnd s')
  end.

Definition trim (s : string) : string := trimEnd (trimStart s).

(** [s || d] on strings: the empty string is the only falsy one. *)
Definition string_or (s d : string) : string :=
  match s with EmptyString => d | _ => s end.

Definition digit_of (c : ascii) : option Z :=
  let n := nat_of_ascii c in
  if Nat.leb 48 n && Nat.leb n 57 then Some (Z.of_nat (n - 48)) else None.

(** The value of the longest leading run of decimal digits of [s],
    continuing from [acc]; [None] while no digit has been read. *)
Fixpoint leading_digits (s : string) (acc : option Z) : option Z :=
  match s with
  | String c s' =>
      match digit_of c with
      | Some d => leading_digits s' (Some (10 * default 0%Z acc + d)%Z)
      | None => acc
      end
  | EmptyString => acc
  end.

(** [parseInt(s, 10)]; [None] is [NaN].  The result is the exact value of
    the numeral; the JavaScript number is the double nearest to it
    (itself up to 2^53, Infinity beyond the range of doubles), which has
    the same sign and is zero for the same numerals. *)
Definition parseInt (s : string) : option Z :=
  let s1 := trimStart s in
  let '(sign, s2) :=
    match s1 with
    | String "-"%char r => ((-1)%Z, r)
    | String "+"%char r => (1%Z, r)
    | _ => (1%Z, s1)
    end in
  match leading_digits s2 None with
  | Some n => Some (sign * n)%Z
  | None => None
  end.

(** [x || d] on numbers: [NaN] and zero are the falsy ones. *)
Definition number_or (x : option Z) (d : Z) : Z :=
  match x with
  | Some n => if Z.eqb n 0 then d else n
  | None => d
  end.

(** What the selectors of the handler find on a fetched page: for each
    selector the text content of every matched element, in document
    order (no match: the empty list). *)
Record FounderDiv : Type := mkFounderDiv {
  founder_h3 : list string              (* $(el).find("h3") *)
}.

Record JobDiv : Type := mkJobDiv {
  job_h4 : list string;                 (* $(el).find("h4") *)
  job_span_location : list string       (* $(el).find("span.location") *)
}.

Record Page : Type := mkPage {
  h1_company_name : list string;        (* $("h1.company-name") *)
  span_founded : list string;           (* $("span.founded") *)
  p_description : list string;          (* $("p.description") *)
  span_team_size : list string;         (* $("span.team-size") *)
  founder_divs : list FounderDiv;       (* $("div.founders div.founder") *)
  job_divs : list JobDiv                (* $("div.jobs div.job") *)
}.

(** [.text()]: the texts of the matched elements, concatenated. *)
Definition text (els : list string) : string := String.concat "" els.

Definition push_founder (founders : list Founder) (el : FounderDiv)
  : list Founder :=
  let founderName := trim (text (founder_h3 el)) in
  match founderName with
  | EmptyString => founders
  | _ => founders ++ [mkFounder founderName]
  end.

Definition push_job (jobs : list Job) (el : JobDiv) : list Job :=
  let title := trim (text (job_h4 el)) in
  let location := trim (text (job_span_location el)) in
  match title, location with
  | EmptyString, EmptyString => jobs
  | _, _ => jobs ++ [mkJob title location]
  end.

(** The body of [requestHandler]: the value it resolves with. *)
Definition requestHandler (page : Page) : CompanyData :=
  let name := string_or (trim (text (h1_company_name page))) "N/A" in
  let founded := string_or (trim (text (span_founded page))) "N/A" in
  let description := string_or (trim (text (p_description page))) "N/A" in
  let teamSize := number_or (parseInt (text (span_team_size page))) 0 in
  let founders := fold_left push_founder (founder_divs page) [] in
  let jobs := fold_left push_job (job_divs page) [] in
  mkCompanyData name founded description teamSize jobs founders.

(** Every call of [scrapeCompanyPage] builds a crawler of its own around
    its own promise and starts it on its own URL.  The crawlers are built
    without a request queue of their own, so they all work off the one
    default queue of the process, which holds every URL once: whichever
    crawler takes a request fetches the page and calls its own handler
    with it, and the handler does not look at [request.url].  A fetch
    that fails is dealt with inside the crawler (retried, then logged):
    it reaches neither the handler nor the promise of [run]. *)
Inductive crawl_event : Type :=
  | Takes (crawler : nat) (url : string)
      (* that crawler takes the request for [url] off the queue *)
  | RunRejects (crawler : nat) (e : error).
      (* crawler.run([url]) of that crawler rejects *)

(** The promise of the call [scrapeCompanyPage(url)] before any crawler
    has done anything: a crawler cannot be run on an undefined URL. *)
Definition scrapeCompanyPage (url : option string) : Promise.t CompanyData :=
  match url with
  | Some _ => Pending
  | None => Rejected (External "invalid request url")
  end.

(** One event of the crawl, on the promises of the calls (in the order
    of the calls); [web] gives the page at a URL that can be fetched. *)
Definition crawl_step (web : string -> option Page)
           (ps : list (Promise.t CompanyData)) (ev : crawl_event)
  : list (Promise.t CompanyData) :=
  match ev with
  | Takes i url =>
      match web url with
      | Some page => alter (resolve (requestHandler page)) i ps
      | None => ps
      end
  | RunRejects i e => alter (reject e) i ps
  end.

(** The promises of [companies.map(company => scrapeCompanyPage(company.url))]
    after the crawl [run]. *)
Definition scrapeCompanyPages (web : string -> option Page)
           (run : list crawl_event) (urls : list (option string))
  : list (Promise.t CompanyData) :=
  fold_left (crawl_step web) run (map scrapeCompanyPage urls).

(** The positions of the calls on an undefined URL. *)
Fixpoint undefined_from (i : nat) (urls : list (option string)) : list nat :=
  match urls with
  | [] => []
  | None :: urls' => i :: undefined_from (S i) urls'
  | Some _ :: urls' => undefined_from (S i) urls'
  end.

(** The order in which the promises are settled: first the calls on an
    undefined URL, then one position for every event that calls
    [resolve] or [reject]. *)
Definition settle_order (web : string -> option Page)
           (run : list crawl_event) (urls : list (option string)) : list nat :=
  undefined_from 0 urls
  ++ flat_map (fun ev =>
                 match ev with
                 | Takes i url =>
                     match web url with Some _ => [i] | None => [] end
                 | RunRejects i _ => [i]
                 end) run.

(** Whether the page at a URL can be fetched. *)
Definition reachable (web : string -> option Page) (url : string) : bool :=
  match web url with Some _ => true | None => false end.

(** The URLs among [urls] that are defined and can be fetched. *)
Definition fetchable (web : string -> option Page)
           (urls : list (option string)) : list string :=
  flat_map (fun url => match url with
                       | Some u => if reachable web u then [u] else []
                       | None => []
                       end) urls.

(** The URLs whose requests are taken in a run. *)
Definition taken (run : list crawl_event) : list string :=
  flat_map (fun ev => match ev with Takes _ url => [url] | _ => [] end) run.

(** A run over the shared queue: only queued URLs are taken, each once. *)
Definition shared_queue_run (urls : list (option string))
           (run : list crawl_event) : Prop :=
  List.NoDup (taken run) /\ forall url, In url (taken run) -> In (Some url) urls.

(** *** writeToFile and processCompanyList *)

(** [out/scraped.json]: the array that was serialised into it, or what a
    write that failed half-way leaves. *)
Inductive json_file : Type :=
  | Written (data : list (option CompanyData))
  | Truncated.

(** The part of the file system the scraper writes. *)
Record disk : Type := mkDisk {
  out_dir : bool;                    (* the directory [out] exists *)
  scraped_json : option json_file    (* [out/scraped.json], if there *)
}.

(** How the file system answers the two calls of [writeToFile]. *)
Inductive write_outcome : Type :=
  | WriteOk
  | OpenFails (e : error)    (* the file could not be opened for writing *)
  | WriteFails (e : error).  (* it was opened, emptied, and the write failed *)

Record file_system : Type := mkFs {
  ensureDir : option error;    (* the error of fsExtra.ensureDir("out"), if any *)
  writeJson : write_outcome
}.

Definition writeToFile (fs : file_system) (data : list (option CompanyData))
           (d : disk) : disk * Promise.t unit :=
  match ensureDir fs with
  | Some e => (d, Rejected e)
  | None =>
      match writeJson fs with
      | WriteOk => (mkDisk true (Some (Written data)), Fulfilled tt)
      | OpenFails e => (mkDisk true (scraped_json d), Rejected e)
      | WriteFails e => (mkDisk true (Some Truncated), Rejected e)
      end
  end.

(** [processCompanyList()] for an input file whose streams deliver
    [evs], a web [web], a crawl [run] and a file system [fs]: the disk
    afterwards and what the returned promise settles to. *)
Definition processCompanyList (evs : list csv_event)
           (web : string -> option Page) (run : list crawl_event)
           (fs : file_system) (d : disk) : disk * Promise.t unit :=
  match parseCSV evs with
  | Pending => (d, Pending)
  | Rejected e => (d, Rejected e)
  | Fulfilled companies =>
      let urls := map company_url companies in
      let companyDataPromises := scrapeCompanyPages web run urls in
      match Promise.all companyDataPromises (settle_order web run urls) with
      | Pending => (d, Pending)
      | Rejected e => (d, Rejected e)
      | Fulfilled companyData => writeToFile fs companyData d
      end
  end.

End Scraper.

(** ** challenge-1: the dump loader *)

Module DumpLoader.

(** *** downloadFile *)

(** What happens to a download after [fs.createWriteStream(destination)]
    has opened the destination and [https.get(url, ...)] is under way.
    The response has no listener of its own: when the connection is
    closed before the end of the body nothing in [downloadFile] is
    called.  (The write stream has no 'error' listener either; the runs
    here are those in which the destination can be opened and written.) *)
Inductive download_event : Type :=
  | Response (statusCode : Z)
      (* the response callback of https.get *)
  | Body (chunk : string)
      (* a chunk of the response flows through the pipe into the file *)
  | Finish (closeErr : option error)
      (* 'finish' on the file, then the callback of file.close *)
  | RequestError (err : error) (unlinkErr : option error)
      (* 'error' on the request, then the callback of fs.unlink *)
  | ResponseAborted.
      (* the connection is closed before the body is complete *)

Record download_state : Type := mkDownload {
  destination_file : option (list string);
    (* the file at [destination]: its chunks, or [None] when there is none *)
  piped : bool;
    (* response.pipe(file) was called and the 'finish' listener is registered *)
  downloaded : Promise.t unit
}.

(** [createWriteStream] opens the destination for writing, which creates
    it or empties what an earlier run left there. *)
Definition download_init : download_state :=
  {| destination_file := Some []; piped := false; downloaded := Pending |}.

Definition download_step (url : string) (st : download_state)
           (ev : download_event) : download_state :=
  match ev with
  | Response statusCode =>
      if negb (Z.eqb statusCode 200)
      then mkDownload (destination_file st) (piped st)
                      (reject (Failed_to_get url statusCode) (downloaded st))
      else mkDownload (destination_file st) true (downloaded st)
  | Body chunk =>
      if piped st
      then mkDownload (option_map (fun c => c ++ [chunk]) (destination_file st))
                      true (downloaded st)
      else st
  | Finish closeErr =>
      if piped st
      then mkDownload (destination_file st) true
                      (match closeErr with
                       | Some err => reject err (downloaded st)
                       | None => resolve tt (downloaded st)
                       end)
      else st
  | RequestError err unlinkErr =>
      match destination_file st, unlinkErr with
      | Some _, None =>
          mkDownload None (piped st) (reject err (downloaded st))
      | Some _, Some e =>
          mkDownload (destination_file st) (piped st) (reject e (downloaded st))
      | None, _ =>
          (* nothing left to unlink: unlink itself reports the failure *)
          mkDownload None (piped st)
                     (reject (default (External "ENOENT") unlinkErr) (downloaded st))
      end
  | ResponseAborted => st
  end.

Definition downloadFile (url : string) (evs : list download_event)
  : download_state :=
  fold_left (download_step url) evs download_init.

(** *** processCSV *)

Section ProcessCSV.

Context {Row : Type}.

(** The parser's events, and the store carrying out an insert.  The
    call [db(tableName).insert(rows)] hands the store the array object
    [rows] itself, and the query builder only records it: the
    statement is built from that object when the query runs, which a
    promise-based store does in a later turn of the event loop, never
    inside the handler that issued the call.  [InsertDone k] is that
    moment for the insert issued [k]-th: the store reads the array as
    it is then, and the promise of the insert settles.  (The query
    builder rejects an insert of an array that is empty by then; the
    model leaves the outcome of every insert to the event, so such a
    run is one whose event carries a rejection.) *)
Inductive load_event : Type :=
  | RowParsed (row : Row)        (* 'data' *)
  | StreamEnd                    (* 'end' *)
  | StreamError (e : error)      (* 'error' on the parser *)
  | InsertDone (k : nat) (rejection : option error).

Record insert_call : Type := mkInsert {
  awaited : bool;       (* issued by the 'end' handler, under [await] *)
  passed : list Row;    (* what [rows] held when [insert(rows)] was called *)
  finished : bool
}.

Record load_state : Type := mkLoad {
  rows : list Row;              (* the one array the handlers share *)
  inserts : list insert_call;   (* the insert calls, in the order issued *)
  table : list Row;             (* the rows the store has inserted *)
  loaded : Promise.t unit
}.

Definition load_init : load_state :=
  {| rows := []; inserts := []; table := []; loaded := Pending |}.

Definition on_data (st : load_state) (row : Row) : load_state :=
  let rows1 := rows st ++ [row] in                         (* rows.push(row) *)
  if Nat.eqb (length rows1) 100
  then mkLoad []                                            (* rows.length = 0 *)
              (inserts st ++ [mkInsert false rows1 false])  (* insert(rows).catch(reject) *)
              (table st) (loaded st)
  else mkLoad rows1 (inserts st) (table st) (loaded st).

Definition on_end (st : load_state) : load_state :=
  if Nat.ltb 0 (length (rows st))
  then mkLoad (rows st)
              (inserts st ++ [mkInsert true (rows st) false])  (* await insert(rows).catch(reject) *)
              (table st) (loaded st)
  else mkLoad (rows st) (inserts st) (table st) (resolve tt (loaded st)).

Definition on_insert_done (st : load_state) (k : nat)
           (rejection : option error) : load_state :=
  match inserts st !! k with
  | Some call =>
      if finished call then st
      else
        let inserts' :=
          <[k := mkInsert (awaited call) (passed call) true]> (inserts st) in
        (* the 'end' handler resumes after its await and calls resolve() *)
        let resume p := if awaited call then resolve tt p else p in
        match rejection with
        | None =>
            mkLoad (rows st) inserts' (table st ++ rows st)
                   (resume (loaded st))
        | Some e =>
            mkLoad (rows st) inserts' (table st)
                   (resume (reject e (loaded st)))
        end
  | None => st
  end.

Definition load_step (st : load_state) (ev : load_event) : load_state :=
  match ev with
  | RowParsed row => on_data st row
  | StreamEnd => on_end st
  | StreamError e => mkLoad (rows st) (inserts st) (table st) (reject e (loaded st))
  | InsertDone k rejection => on_insert_done st k rejection
  end.

(** [processCSV(filePath, tableName, db)] over an execution [evs]. *)
Definition processCSV (evs : list load_event) : load_state :=
  fold_left load_step evs load_init.

(** The stream's own events within an execution. *)
Definition stream_events (evs : list load_event) : list load_event :=
  List.filter (fun ev => match ev with InsertDone _ _ => false | _ => true end) evs.

(** A file of the given data rows that parses to its end. *)
Definition csv_file (data : list Row) : list load_event :=
  map RowParsed data ++ [StreamEnd].

(** The batches as the calls were issued: the argument of each
    [insert] at the moment of the call. *)
Definition issued_batches (st : load_state) : list (list Row) :=
  map passed (inserts st).

(** What holds while the first [done] rows of the file [data] have been
    parsed: the batches issued so far and the array make up [done],
    every issued batch has 100 rows, the array has fewer, and the
    table holds only rows that come after the first 100. *)
Definition load_inv (data : list Row) (st : load_state) (done : list Row)
  : Prop :=
  concat (issued_batches st) ++ rows st = done
  /\ Forall (fun b => length b = 100) (issued_batches st)
  /\ length (rows st) < 100
  /\ Forall (fun r => In r (skipn 100 data)) (table st).

End ProcessCSV.

(** *** processDataDump *)

(** The helpers [processDataDump] awaits, in the words of the pipeline:
    [downloadFile], [extractTarGz], [fsPromises.readdir],
    [setupDatabase], [processCSV] and [db.destroy]. *)
Inductive stage : Type :=
  | Downloader
  | Extractor
  | ListDir
  | SchemaInitializer
  | BatchLoader (tableName : string)
  | CloseDb.

(** How an awaited call ends. *)
Inductive result (A : Type) : Type :=
  | Done (v : A)        (* the promise is fulfilled *)
  | Throw (e : error)   (* the promise is rejected: [await] throws *)
  | Crash (e : error)   (* an 'error' event nobody listens to: the process dies *)
  | Hang.               (* the promise never settles *)
Arguments Done {A} v.
Arguments Throw {A} e.
Arguments Crash {A} e.
Arguments Hang {A}.

Section Pipeline.

Context {Row : Type}.

(** An archive file, as the chunks it holds. *)
Abbreviation archive := (list string).

(** Everything outside the program that one run depends on. *)
Record environment : Type := mkEnv {
  network : list download_event;
    (* what the download of the fixed URL delivers *)
  unpack : archive -> option error;
    (* the error tar.extract emits for an archive, if any *)
  schema : option error;
    (* whether dropping and creating the two tables fails *)
  loading : string -> list (@load_event Row);
    (* the execution of processCSV for a table *)
  closing : option error
}.

Inductive console_line : Type :=
  | Extracted_files
  | Data_successfully_processed
  | Error_processing_data_dump (e : error).

Record world : Type := mkWorld {
  dump_tar_gz : option archive;           (* tmp/dump.tar.gz *)
  tables : list (string * list Row);      (* what each processCSV call stored *)
  calls : list stage;                     (* the helpers called, in order *)
  console : list console_line
}.

Definition task (A : Type) : Type := world -> result A * world.

Definition ret {A} (v : A) : task A := fun w => (Done v, w).

Definition bind {A B} (c : task A) (k : A -> task B) : task B :=
  fun w =>
    match c w with
    | (Done v, w') => k v w'
    | (Throw e, w') => (Throw e, w')
    | (Crash e, w') => (Crash e, w')
    | (Hang, w') => (Hang, w')
    end.

(** [try { body } catch (error) { handler(error) }] *)
Definition try_catch (body : task unit) (handler : error -> task unit)
  : task unit :=
  fun w =>
    match body w with
    | (Throw e, w') => handler e w'
    | r => r
    end.

Definition called (s : stage) : task unit :=
  fun w => (Done tt,
            mkWorld (dump_tar_gz w) (tables w) (calls w ++ [s]) (console w)).

Definition print (l : console_line) : task unit :=
  fun w => (Done tt,
            mkWorld (dump_tar_gz w) (tables w) (calls w) (console w ++ [l])).

Definition settles (r : option error) : task unit :=
  fun w => (match r with None => Done tt | Some e => Throw e end, w).

Definition of_promise (p : Promise.t unit) : result unit :=
  match p with
  | Fulfilled _ => Done tt
  | Rejected e => Throw e
  | Pending => Hang
  end.

Local Notation "c1 >> c2" := (bind c1 (fun _ => c2))
  (at level 62, right associativity).

(** [await downloadFile(url, tarGzPath)] *)
Definition await_downloadFile (env : environment) (url : string)
  : task unit :=
  called Downloader >>
  fun w =>
    let st := downloadFile url (network env) in
    (of_promise (downloaded st),
     mkWorld (destination_file st) (tables w) (calls w) (console w)).

(** [await extractTarGz(tarGzPath, extractPath)].  Its 'error'
    listener sits on the last stream of the pipe only, so a source
    file that cannot be read is an unhandled 'error'. *)
Definition await_extractTarGz (env : environment) : task unit :=
  called Extractor >>
  fun w =>
    match dump_tar_gz w with
    | None => (Crash (External "ENOENT"), w)
    | Some a => settles (unpack env a) w
    end.

Definition await_readdir : task unit :=
  called ListDir >> print Extracted_files.

Definition await_setupDatabase (env : environment) : task unit :=
  called SchemaInitializer >> settles (schema env).

(** [await processCSV(csv, tableName, db)] *)
Definition await_processCSV (env : environment) (tableName : string)
  : task unit :=
  called (BatchLoader tableName) >>
  fun w =>
    let st := processCSV (loading env tableName) in
    (of_promise (loaded st),
     mkWorld (dump_tar_gz w) (tables w ++ [(tableName, table st)])
             (calls w) (console w)).

Definition await_destroy (env : environment) : task unit :=
  called CloseDb >> settles (closing env).

Definition processDataDump (env : environment) : task unit :=
  try_catch
    (await_extractTarGz env >>
     await_readdir >>
     await_downloadFile env "https://fiber-challenges.s3.amazonaws.com/dump.tar.gz" >>
     await_extractTarGz env >>
     await_setupDatabase env >>
     await_processCSV env "customers" >>
     await_processCSV env "organizations" >>
     print Data_successfully_processed >>
     await_destroy env)
    (fun error => print (Error_processing_data_dump error)).

(** The helpers a run calls, in order, from a given disk. *)
Definition stages_run (env : environment) (dump : option archive)
  : list stage :=
  calls (snd (processDataDump env (mkWorld dump [] [] []))).

(** A task only ever adds to the list of helpers called. *)
Definition grows {A} (t : task A) : Prop :=
  forall w, exists l, calls (snd (t w)) = calls w ++ l.

(** The first helper a task calls. *)
Definition starts_with (s : stage) (t : task unit) : Prop :=
  forall w, exists l, calls (snd (t w)) = calls w ++ s :: l.

End Pipeline.

End DumpLoader.

(** ** challenge-1: the schema and the extraction *)

Module Schema.

(** *** setupDatabase *)

(** A column as the table builder of [setupDatabase] declares it: the
    method that creates it and the modifiers chained on it. *)
Inductive column_kind : Type :=
  | increments     (* table.increments(name) *)
  | string_column. (* table.string(name) *)

Record column : Type := mkColumn {
  column_name : string;
  kind : column_kind;
  primary : bool;       (* .primary() *)
  notNullable : bool    (* .notNullable() *)
}.

Section Database.

Context {Row : Type}.

Record table_def : Type := mkTable {
  columns : list column;
  contents : list Row
}.

(** The database file: its tables by name. *)
Abbreviation database := (gmap string table_def).

(** [db.schema.dropTableIfExists(name)] *)
Definition dropTableIfExists (name : string) (db : database) : database :=
  delete name db.

(** [db.schema.createTable(name, builder)]: creating a table that is
    already there is an error of the database. *)
Definition createTable (name : string) (cols : list column) (db : database)
  : database + error :=
  match db !! name with
  | Some _ => inr (External "table already exists")
  | None => inl (<[name := mkTable cols []]> db)
  end.

Definition customers_columns : list column :=
  [ mkColumn "id" increments true false;
    mkColumn "name" string_column false true;
    mkColumn "email" string_column false true;
    mkColumn "phone" string_column false true;
    mkColumn "address" string_column false true;
    mkColumn "organization_id" string_column false true ].

Definition organizations_columns : list column :=
  [ mkColumn "id" increments true false;
    mkColumn "name" string_column false true;
    mkColumn "industry" string_column false true;
    mkColumn "address" string_column false true ].

(** [setupDatabase(dbPath)], on the tables the file at [dbPath] holds. *)
Definition setupDatabase (db : database) : database + error :=
  let db1 := dropTableIfExists "customers" db in
  let db2 := dropTableIfExists "organizations" db1 in
  match createTable "customers" customers_columns db2 with
  | inr e => inr e
  | inl db3 => createTable "organizations" organizations_columns db3
  end.

End Database.

(** *** extractTarGz *)

(** What the three streams of
    [fs.createReadStream(source).pipe(zlib.createGunzip()).pipe(tar.extract(...))]
    can emit.  The two listeners of [extractTarGz] are registered on the
    stream the last [pipe] returns, which is the tar extractor. *)
Inductive extract_event : Type :=
  | ReadError (e : error)     (* 'error' on the file read stream *)
  | GunzipError (e : error)   (* 'error' on the gunzip stream *)
  | TarError (e : error)      (* 'error' on the tar extractor *)
  | TarFinish.                (* 'finish' on the tar extractor *)

Record extract_state : Type := mkExtract {
  extracted : Promise.t unit;
  unhandled : option error
}.

Definition extract_init : extract_state :=
  {| extracted := Pending; unhandled := None |}.

Definition extract_step (st : extract_state) (ev : extract_event)
  : extract_state :=
  match unhandled st with
  | Some _ => st   (* the process is gone *)
  | None =>
      match ev with
      | TarFinish => mkExtract (resolve tt (extracted st)) None
      | TarError e => mkExtract (reject e (extracted st)) None
      | ReadError e | GunzipError e =>
          (* no 'error' listener on this stream: the emitter throws *)
          mkExtract (extracted st) (Some e)
      end
  end.

Definition extractTarGz (evs : list extract_event) : extract_state :=
  fold_left extract_step evs extract_init.

End Schema.

(** ** Shapes of text *)

Module Shapes.

Import Scraper.

(** A text made of white space only (the empty text included). *)
Definition blank (s : string) : bool := isBlank s.

(** A character of one byte that is not white space. *)
Definition plain (c : ascii) : bool :=
  Nat.ltb (nat_of_ascii c) 128 && negb (isWhiteSpace1 c).

(** A text that does not go on with a decimal digit. *)
Definition no_digit_ahead (s : string) : bool :=
  match s with
  | EmptyString => true
  | String c _ => match digit_of c with Some _ => false | None => true end
  end.

End Shapes.

(** ** Sample inputs *)

Module Samples.

Import Scraper.

Definition acme_row : CsvRow :=
  <["Company Name" := "Acme"]> (<["YC URL" := "https://yc/acme"]> ∅).

Definition beta_row : CsvRow :=
  <["Company Name" := "Beta"]> (<["YC URL" := "https://yc/beta"]> ∅).

(** A row of a file whose header line is [Name,URL]. *)
Definition other_headers_row : CsvRow :=
  <["Name" := "Acme"]> (<["URL" := "https://yc/acme"]> ∅).

Definition acme_page : Page :=
  {| h1_company_name := ["Acme"]; span_founded := ["2019"];
     p_description := [" Rockets "]; span_team_size := ["12 people"];
     founder_divs := [mkFounderDiv ["Wile E."]];
     job_divs := [mkJobDiv ["Engineer"] ["Remote"]; mkJobDiv [] []] |}.

Definition beta_page : Page :=
  {| h1_company_name := ["Beta"]; span_founded := ["2021"];
     p_description := ["Testing"]; span_team_size := ["3"];
     founder_divs := []; job_divs := [] |}.

(** A page on which no selector of the handler matches. *)
Definition bare_page : Page :=
  {| h1_company_name := []; span_founded := []; p_description := [];
     span_team_size := []; founder_divs := []; job_divs := [] |}.

(** A page whose team-size element reads [-5]. *)
Definition minus_page : Page :=
  {| h1_company_name := ["Gamma"]; span_founded := []; p_description := [];
     span_team_size := ["-5"]; founder_divs := []; job_divs := [] |}.

(** A web on which the pages of Acme and Beta can be fetched, a page
    without any of the elements sits at [https://yc/bare], one with a
    negative team size at [https://yc/gamma], and nothing else answers. *)
Definition web (url : string) : option Page :=
  if String.eqb url "https://yc/acme" then Some acme_page
  else if String.eqb url "https://yc/beta" then Some beta_page
  else if String.eqb url "https://yc/bare" then Some bare_page
  else if String.eqb url "https://yc/gamma" then Some minus_page
  else None.

Definition down_row : CsvRow :=
  <["Company Name" := "Down"]> (<["YC URL" := "https://yc/down"]> ∅).

Definition empty_disk : disk :=
  {| out_dir := false; scraped_json := None |}.

(** A file system on which both calls of [writeToFile] succeed. *)
Definition sound_fs : file_system :=
  {| ensureDir := None; writeJson := WriteOk |}.

(** U+00A0, the no-break space, as text. *)
Definition nbsp : string :=
  String (ascii_of_nat 194) (String (ascii_of_nat 160) EmptyString).

(** A page whose team size reads [-5] after a no-break space, and whose
    name is a no-break space only. *)
Definition nbsp_page : Page :=
  {| h1_company_name := [nbsp]; span_founded := []; p_description := [];
     span_team_size := [nbsp; "-5"]; founder_divs := [mkFounderDiv [nbsp]];
     job_divs := [mkJobDiv [nbsp] [" "]] |}.

(** A run of the dump loader in which every helper succeeds: the
    server answers 200 with two chunks, every archive unpacks, and each
    CSV holds three rows that the store accepts. *)
Definition healthy : @DumpLoader.environment nat :=
  {| DumpLoader.network :=
       [DumpLoader.Response 200; DumpLoader.Body "a"; DumpLoader.Body "b";
        DumpLoader.Finish None];
     DumpLoader.unpack := fun _ => None;
     DumpLoader.schema := None;
     DumpLoader.loading := fun _ =>
       DumpLoader.csv_file [1; 2; 3] ++ [DumpLoader.InsertDone 0 None];
     DumpLoader.closing := None |}.

End Samples.

(** * Properties *)

(** ** Promise.all *)

Module PromiseFacts.

Section All.

Context {A : Type}.
Implicit Types (vs : list (option A)) (xs : list A).

Lemma holes_replicate n : holes (replicate n (@None A)) = n.
Proof. induction n as [|n IH]; simpl; congruence. Qed.

Lemma holes_pos vs i : vs !! i = Some None -> 0 < holes vs.
Proof.
  revert i; induction vs as [|[a|] vs IH]; intros [|i] H; simpl in *;
    try discriminate; eauto; lia.
Qed.

Lemma holes_fill vs i (v : A) :
  vs !! i = Some None -> holes (<[i := Some v]> vs) = Nat.pred (holes vs).
Proof.
  revert i; induction vs as [|o vs IH]; intros [|i] H; simpl in *;
    try discriminate.
  - injection H as ->. reflexivity.
  - pose proof (holes_pos _ _ H). rewrite (IH i H).
    destruct o; simpl; lia.
Qed.

Lemma holes_fmap_Some xs : holes (Some <$> xs) = 0.
Proof. induction xs; simpl; auto. Qed.

(** *** Every input promise is fulfilled *)

Section Fulfilled.

Variable xs : list A.

Let ps : list (Promise.t A) := Fulfilled <$> xs.

Local Abbreviation all_inv := (Promise.all_inv xs).

Lemma all_init_inv : all_inv (all_init (length ps)).
Proof.
  unfold all_inv, all_init, ps; simpl.
  rewrite length_fmap, length_replicate, holes_replicate.
  repeat split; auto.
  - intros j v H. apply lookup_replicate in H as [H _]. discriminate.
  - destruct xs; reflexivity.
Qed.

Lemma all_settle_inv st i : all_inv st -> all_inv (all_settle ps st i).
Proof.
  intros (Hlen & Hval & Hrem & Hagg). unfold all_settle, ps.
  rewrite list_lookup_fmap.
  destruct (xs !! i) as [x|] eqn:Hx; simpl; [|repeat split; auto].
  destruct (values st !! i) as [[w|]|] eqn:Hi; [repeat split; auto| |repeat split; auto].
  pose proof (holes_pos _ _ Hi) as Hpos.
  unfold all_inv; simpl. rewrite length_insert, holes_fill by exact Hi.
  repeat split; auto.
  - intros j v. destruct (decide (i = j)) as [->|Hne].
    + rewrite list_lookup_insert_eq by (apply lookup_lt_Some in Hi; lia).
      intros [= <-]. exact Hx.
    + rewrite list_lookup_insert_ne by exact Hne. apply Hval.
  - rewrite Hagg, Hrem.
    destruct (holes (values st)) as [|[|h]]; simpl; [lia| |]; reflexivity.
Qed.

Lemma all_settle_keeps st i j v :
  values st !! j = Some (Some v) ->
  values (all_settle ps st i) !! j = Some (Some v).
Proof.
  intros Hj. unfold all_settle.
  destruct (ps !! i) as [[| |]|]; simpl; auto.
  destruct (values st !! i) as [[w|]|] eqn:Hi; simpl; auto.
  rewrite list_lookup_insert_ne; [exact Hj|congruence].
Qed.

Lemma all_settle_fills st i x :
  all_inv st -> xs !! i = Some x ->
  values (all_settle ps st i) !! i = Some (Some x).
Proof.
  intros (Hlen & Hval & _) Hx. unfold all_settle, ps.
  rewrite list_lookup_fmap, Hx; simpl.
  destruct (values st !! i) as [[w|]|] eqn:Hi; simpl.
  - rewrite Hi. f_equal. f_equal. apply Hval in Hi. congruence.
  - apply list_lookup_insert_eq. apply lookup_lt_Some in Hi. exact Hi.
  - apply lookup_ge_None in Hi. apply lookup_lt_Some in Hx. lia.
Qed.

Lemma all_run_inv order st :
  all_inv st ->
  all_inv (fold_left (all_settle ps) order st)
  /\ forall i x, xs !! i = Some x ->
       i ∈ order \/ values st !! i = Some (Some x) ->
       values (fold_left (all_settle ps) order st) !! i = Some (Some x).
Proof.
  revert st; induction order as [|k order IH]; intros st Hinv; simpl.
  - split; [exact Hinv|]. intros i x _ [H|H]; [inversion H|exact H].
  - destruct (IH _ (all_settle_inv st k Hinv)) as [IH1 IH2].
    split; [exact IH1|]. intros i x Hx [Hin|Hst].
    + apply elem_of_cons in Hin as [->|Hin].
      * apply (IH2 _ _ Hx). right. apply all_settle_fills; assumption.
      * apply (IH2 _ _ Hx). left. exact Hin.
    + apply (IH2 _ _ Hx). right. apply all_settle_keeps. exact Hst.
Qed.

(** Whatever the order in which the inputs settle, the result array
    holds the value of input [i] at position [i]. *)
Lemma all_fulfilled order :
  (forall i, i < length xs -> i ∈ order) ->
  Promise.all ps order = Fulfilled (Some <$> xs).
Proof.
  intros Hall. unfold Promise.all.
  destruct (all_run_inv order _ all_init_inv) as [(Hlen & _ & Hrem & Hagg) Hfill].
  set (st := fold_left (all_settle ps) order (all_init (length ps))) in *.
  assert (Hvals : values st = Some <$> xs).
  { apply list_eq. intros i. rewrite list_lookup_fmap.
    destruct (xs !! i) as [x|] eqn:Hx; simpl.
    - apply (Hfill _ _ Hx). left. apply Hall. eapply lookup_lt_Some; eauto.
    - apply lookup_ge_None. apply lookup_ge_None in Hx. lia. }
  rewrite Hagg, Hrem, Hvals, holes_fmap_Some. reflexivity.
Qed.

End Fulfilled.

(** *** Some input promise is rejected *)

Section Rejected.

Variables (ps : list (Promise.t A)) (i : nat) (e : error).
Hypothesis Hrej : ps !! i = Some (Rejected e).

Local Abbreviation rejected_by_input := (Promise.rejected_by_input ps).
Local Abbreviation rej_inv := (Promise.rej_inv ps i).

Lemma rej_init_inv : rej_inv (all_init (length ps)).
Proof.
  pose proof (lookup_lt_Some _ _ _ Hrej) as Hlt.
  unfold rej_inv, all_init; simpl. rewrite holes_replicate.
  repeat split.
  - apply lookup_replicate. auto.
  - left. destruct (length ps); [lia|reflexivity].
Qed.

Lemma rej_settle_inv st k : rej_inv st -> rej_inv (all_settle ps st k).
Proof.
  intros (Hi & Hrem & Hagg). unfold all_settle.
  destruct (ps !! k) as [[|v|e']|] eqn:Hk; try (repeat split; assumption).
  - destruct (values st !! k) as [[w|]|] eqn:Hvk; try (repeat split; assumption).
    assert (Hne : k <> i) by (intros ->; congruence).
    assert (Hi' : <[k := Some v]> (values st) !! i = Some None)
      by (rewrite list_lookup_insert_ne; assumption).
    unfold rej_inv; simpl. rewrite holes_fill by exact Hvk.
    repeat split; [exact Hi'|congruence|].
    pose proof (holes_pos _ _ Hi') as Hpos.
    rewrite holes_fill in Hpos by exact Hvk. rewrite Hrem.
    destruct (Nat.pred (holes (values st))); [lia|exact Hagg].
  - unfold rej_inv; simpl. repeat split; try assumption.
    right. destruct Hagg as [->|(j & e1 & Hj & ->)]; simpl.
    + exists k, e'. auto.
    + exists j, e1. auto.
Qed.

Lemma rej_settle_at st : rej_inv st ->
  rejected_by_input (aggregate (all_settle ps st i)).
Proof.
  intros (_ & _ & Hagg). unfold all_settle. rewrite Hrej; simpl.
  destruct Hagg as [->|(j & e1 & Hj & ->)]; simpl.
  - exists i, e. auto.
  - exists j, e1. auto.
Qed.

Lemma rej_settle_stays st k :
  rejected_by_input (aggregate st) ->
  rejected_by_input (aggregate (all_settle ps st k)).
Proof.
  intros (j & e1 & Hj & Hagg). unfold all_settle.
  destruct (ps !! k) as [[|v|e']|]; try (exists j, e1; auto; fail).
  - destruct (values st !! k) as [[w|]|]; try (exists j, e1; auto; fail).
    simpl. rewrite Hagg.
    destruct (Nat.eqb _ 0); exists j, e1; auto.
  - simpl. rewrite Hagg. exists j, e1. auto.
Qed.

Lemma rej_run_inv order st :
  rej_inv st ->
  rej_inv (fold_left (all_settle ps) order st)
  /\ (i ∈ order \/ rejected_by_input (aggregate st) ->
      rejected_by_input (aggregate (fold_left (all_settle ps) order st))).
Proof.
  revert st; induction order as [|k order IH]; intros st Hinv; simpl.
  - split; [exact Hinv|]. intros [H|H]; [inversion H|exact H].
  - destruct (IH _ (rej_settle_inv st k Hinv)) as [IH1 IH2].
    split; [exact IH1|]. intros [Hin|Hst]; apply IH2.
    + apply elem_of_cons in Hin as [<-|Hin]; [right|left; exact Hin].
      apply rej_settle_at. exact Hinv.
    + right. apply rej_settle_stays. exact Hst.
Qed.

(** With a rejected input the aggregate is never fulfilled. *)
Lemma all_never_fulfilled order :
  Promise.all ps order = Pending
  \/ rejected_by_input (Promise.all ps order).
Proof.
  destruct (rej_run_inv order _ rej_init_inv) as [(_ & _ & H) _]. exact H.
Qed.

(** Once the rejected input has settled, so has the aggregate. *)
Lemma all_rejected order :
  i ∈ order -> rejected_by_input (Promise.all ps order).
Proof.
  intros Hin.
  destruct (rej_run_inv order _ rej_init_inv) as [_ H]. apply H. auto.
Qed.

End Rejected.

End All.

(** *** When the aggregate is settled *)

Lemma holes_zero_values {A} (vs : list (option A)) :
  holes vs = 0 -> exists xs, vs = Some <$> xs.
Proof.
  induction vs as [|[a|] vs IH]; simpl; intros H.
  - exists []. reflexivity.
  - destruct (IH H) as [xs ->]. exists (a :: xs). reflexivity.
  - discriminate.
Qed.

Lemma all_settle_sound {A} (ps : list (Promise.t A)) st i :
  length (values st) = length ps
  /\ remaining st = holes (values st)
  /\ (forall j v, values st !! j = Some (Some v) -> ps !! j = Some (Fulfilled v))
  /\ (forall vs, aggregate st = Fulfilled vs -> vs = values st /\ holes vs = 0) ->
  let st' := all_settle ps st i in
  length (values st') = length ps
  /\ remaining st' = holes (values st')
  /\ (forall j v, values st' !! j = Some (Some v) -> ps !! j = Some (Fulfilled v))
  /\ (forall vs, aggregate st' = Fulfilled vs -> vs = values st' /\ holes vs = 0).
Proof.
  intros Hinv. pose proof Hinv as (Hlen & Hrem & Hval & Hagg).
  cbv zeta. unfold all_settle.
  destruct (ps !! i) as [[|v|e]|] eqn:Hi; simpl; try exact Hinv.
  - destruct (values st !! i) as [[w|]|] eqn:Hvi; simpl; try exact Hinv.
    rewrite length_insert, holes_fill by exact Hvi.
    repeat split; [exact Hlen|congruence| | |].
    + intros j u. destruct (decide (i = j)) as [<-|Hne].
      * rewrite list_lookup_insert_eq by (eapply lookup_lt_Some; eauto).
        intros [= <-]. exact Hi.
      * rewrite list_lookup_insert_ne by exact Hne. apply Hval.
    + destruct (aggregate st) as [|vs0|e0] eqn:Ha.
      * destruct (Nat.eqb_spec (Nat.pred (remaining st)) 0) as [Hz|Hz];
          simpl in *; [|discriminate]. congruence.
      * destruct (Hagg vs0 eq_refl) as [-> Hz].
        apply holes_pos in Hvi. lia.
      * destruct (Nat.eqb _ 0); discriminate.
    + destruct (aggregate st) as [|vs0|e0] eqn:Ha.
      * destruct (Nat.eqb_spec (Nat.pred (remaining st)) 0) as [Hz|Hz];
          simpl in *; [|discriminate].
        injection H as <-. rewrite holes_fill by exact Hvi. congruence.
      * destruct (Hagg vs0 eq_refl) as [-> Hz].
        apply holes_pos in Hvi. lia.
      * destruct (Nat.eqb _ 0); discriminate.
  - repeat split; try assumption;
      destruct (aggregate st) as [|vs0|e0] eqn:Ha; simpl in *;
      try discriminate; apply Hagg; assumption.
Qed.

(** The aggregate is fulfilled only when every input is, and then with
    the inputs' values in the inputs' order. *)
Lemma all_fulfilled_only_if {A} (ps : list (Promise.t A)) order vs :
  Promise.all ps order = Fulfilled vs ->
  exists xs, ps = Fulfilled <$> xs /\ vs = Some <$> xs.
Proof.
  unfold Promise.all.
  assert (Hrun : forall order st,
    (length (values st) = length ps
     /\ remaining st = holes (values st)
     /\ (forall j v, values st !! j = Some (Some v) -> ps !! j = Some (Fulfilled v))
     /\ (forall vs, aggregate st = Fulfilled vs -> vs = values st /\ holes vs = 0)) ->
    let st' := fold_left (all_settle ps) order st in
    length (values st') = length ps
    /\ (forall j v, values st' !! j = Some (Some v) -> ps !! j = Some (Fulfilled v))
    /\ (forall vs, aggregate st' = Fulfilled vs -> vs = values st' /\ holes vs = 0)).
  { clear. induction order as [|i order IH]; intros st Hst; simpl.
    - destruct Hst as (H1 & _ & H3 & H4). auto.
    - apply IH. apply (all_settle_sound ps st i Hst). }
  intros Hful.
  destruct (Hrun order (all_init (length ps))) as (Hlen & Hval & Hagg).
  { unfold all_init; simpl. rewrite length_replicate, holes_replicate.
    repeat split.
    - intros j v H. apply lookup_replicate in H as [H _]. discriminate.
    - destruct (length ps); simpl in H; [|discriminate].
      injection H as <-. reflexivity.
    - destruct (length ps); simpl in H; [|discriminate].
      injection H as <-. reflexivity. }
  destruct (Hagg vs Hful) as [Hvs Hz].
  destruct (holes_zero_values vs Hz) as [xs Hxs].
  exists xs. split; [|exact Hxs].
  apply list_eq. intros j. rewrite list_lookup_fmap.
  destruct (xs !! j) as [x|] eqn:Hx; simpl.
  - apply Hval. rewrite <- Hvs, Hxs, list_lookup_fmap, Hx. reflexivity.
  - apply lookup_ge_None. apply lookup_ge_None in Hx.
    rewrite <- Hlen, <- Hvs, Hxs, length_fmap. exact Hx.
Qed.

Lemma all_rejected_only_if {A} (ps : list (Promise.t A)) order e :
  Promise.all ps order = Rejected e ->
  exists j, ps !! j = Some (Rejected e).
Proof.
  unfold Promise.all.
  assert (Hrun : forall order st,
            (aggregate st = Rejected e -> exists j, ps !! j = Some (Rejected e)) ->
            aggregate (fold_left (all_settle ps) order st) = Rejected e ->
            exists j, ps !! j = Some (Rejected e)).
  { clear order. induction order as [|i order IH]; intros st Hst; simpl;
      [exact Hst|].
    apply IH. unfold all_settle.
    destruct (ps !! i) as [[|v|e']|] eqn:Hi; simpl; try exact Hst.
    - destruct (values st !! i) as [[w|]|]; simpl; try exact Hst.
      destruct (Nat.eqb _ 0); [|exact Hst].
      destruct (aggregate st); simpl; try discriminate; exact Hst.
    - destruct (aggregate st) eqn:Ha; simpl; try discriminate.
      + intros [= ->]. eauto.
      + exact Hst. }
  apply Hrun. unfold all_init; simpl.
  destruct (Nat.eqb _ 0); discriminate.
Qed.

End PromiseFacts.

(** ** challenge-2: the scraper *)

Module ScraperFacts.

Import Scraper PromiseFacts.

(** *** parseCSV *)

Lemma parse_data_rows rows st :
  uncaught st = None ->
  fold_left parse_step (map Data rows) st
  = mkParse (companies st ++ map company_of_row rows) (parsed st) None.
Proof.
  revert st; induction rows as [|row rows IH]; intros [cs p u] Hu;
    simpl in *; subst u.
  - rewrite app_nil_r. reflexivity.
  - rewrite IH by reflexivity. simpl. rewrite <- app_assoc. reflexivity.
Qed.

Lemma parse_rejected_stays evs st e :
  parsed st = Rejected e -> parsed (fold_left parse_step evs st) = Rejected e.
Proof.
  revert st; induction evs as [|ev evs IH]; intros st H; simpl; [exact H|].
  apply IH. unfold parse_step.
  destruct (uncaught st); [exact H|].
  destruct ev; simpl; rewrite ?H; reflexivity.
Qed.

Lemma parseCSV_rows rows :
  parseCSV (csv_stream rows) = Fulfilled (map company_of_row rows).
Proof.
  unfold parseCSV, parse_run, csv_stream.
  rewrite fold_left_app, parse_data_rows by reflexivity. reflexivity.
Qed.

Lemma parseCSV_parser_error rows e rest :
  parseCSV (map Data rows ++ ParseError e :: rest) = Rejected e.
Proof.
  unfold parseCSV, parse_run.
  rewrite fold_left_app, parse_data_rows by reflexivity. simpl.
  apply parse_rejected_stays. reflexivity.
Qed.

(** A file that cannot be opened makes the read stream emit 'error';
    the listeners of [parseCSV] are on the parser, so the promise is
    left pending and the error is thrown out of the emitter. *)
Lemma parseCSV_file_error e rest :
  parseCSV (FileError e :: rest) = Pending
  /\ uncaught (parse_run (FileError e :: rest)) = Some e.
Proof.
  unfold parseCSV, parse_run; simpl.
  assert (H : forall evs st, uncaught st = Some e ->
              fold_left parse_step evs st = st).
  { induction evs as [|ev evs IH]; intros st Hst; simpl; [reflexivity|].
    unfold parse_step at 2. rewrite Hst. apply IH. exact Hst. }
  rewrite H by reflexivity. auto.
Qed.

(** *** scrapeCompanyPage *)

Lemma leading_digits_nonneg s acc n :
  (forall a, acc = Some a -> (0 <= a)%Z) ->
  leading_digits s acc = Some n -> (0 <= n)%Z.
Proof.
  revert acc; induction s as [|c s IH]; intros acc Hacc H; simpl in H.
  - eauto.
  - destruct (digit_of c) as [d|] eqn:Hd; [|eauto].
    apply IH in H; [exact H|]. intros a [= <-].
    assert (0 <= d)%Z.
    { unfold digit_of in Hd. destruct (_ && _); [|discriminate].
      injection Hd as <-. lia. }
    destruct acc as [a0|]; simpl; [specialize (Hacc a0 eq_refl)|]; lia.
Qed.

(** *** The crawl *)

Lemma crawl_step_length web ps ev :
  length (crawl_step web ps ev) = length ps.
Proof.
  destruct ev as [i u|i e]; simpl; [destruct (web u)|];
    rewrite ?length_alter; reflexivity.
Qed.

Lemma crawl_length web run : forall ps,
  length (fold_left (crawl_step web) run ps) = length ps.
Proof.
  induction run as [|ev run IH]; intros ps; simpl; [reflexivity|].
  rewrite IH. apply crawl_step_length.
Qed.

Lemma count_alter_resolve {A} (v : A) i (ps : list (Promise.t A)) :
  length (List.filter fulfilled (alter (resolve v) i ps))
  <= S (length (List.filter fulfilled ps)).
Proof.
  unfold alter.
  revert i; induction ps as [|p ps IH]; intros [|i]; simpl; try lia.
  - destruct p; simpl; lia.
  - specialize (IH i). destruct (fulfilled p); simpl; lia.
Qed.

Lemma count_alter_reject {A} e i (ps : list (Promise.t A)) :
  length (List.filter fulfilled (alter (reject e) i ps))
  = length (List.filter fulfilled ps).
Proof.
  unfold alter.
  revert i; induction ps as [|p ps IH]; intros [|i]; simpl; try reflexivity.
  - destruct p; reflexivity.
  - specialize (IH i). destruct (fulfilled p); simpl; lia.
Qed.

(** Every promise that gets fulfilled uses up one request whose page
    could be fetched. *)
Lemma crawl_count web run : forall ps,
  length (List.filter fulfilled (fold_left (crawl_step web) run ps))
  <= length (List.filter fulfilled ps)
     + length (List.filter (reachable web) (taken run)).
Proof.
  induction run as [|ev run IH]; intros ps; simpl; [lia|].
  etransitivity; [apply IH|].
  destruct ev as [i u|i e]; simpl.
  - unfold reachable at 2. destruct (web u) as [page|]; simpl; [|lia].
    pose proof (count_alter_resolve (requestHandler page) i ps). lia.
  - rewrite count_alter_reject. lia.
Qed.

Lemma started_none_fulfilled urls :
  List.filter fulfilled (map scrapeCompanyPage urls) = [].
Proof. induction urls as [|[u|] urls IH]; simpl; exact IH || reflexivity. Qed.

Lemma fulfilled_all {A} (xs : list A) :
  length (List.filter fulfilled (Fulfilled <$> xs)) = length xs.
Proof. induction xs as [|x xs IH]; csimpl; [reflexivity|]. simpl. congruence. Qed.

Lemma fetchable_length web urls :
  length (fetchable web urls) <= length urls.
Proof.
  induction urls as [|[u|] urls IH]; simpl; [lia| |lia].
  destruct (reachable web u); simpl; lia.
Qed.

Lemma fetchable_all web urls :
  length urls <= length (fetchable web urls) ->
  urls = map Some (fetchable web urls).
Proof.
  induction urls as [|[u|] urls IH]; simpl; [reflexivity| |].
  - pose proof (fetchable_length web urls) as Hf.
    destruct (reachable web u); simpl; intros H; [|lia].
    f_equal. apply IH. lia.
  - pose proof (fetchable_length web urls) as Hf. lia.
Qed.

Lemma fetchable_in web urls u :
  In u (fetchable web urls) <-> In (Some u) urls /\ reachable web u = true.
Proof.
  unfold fetchable. rewrite in_flat_map. split.
  - intros ([v|] & Hin & Hu); [|contradiction].
    destruct (reachable web v) eqn:Hr; [|contradiction].
    destruct Hu as [->|[]]. auto.
  - intros [Hin Hr]. exists (Some u). rewrite Hr.
    split; [exact Hin|left; reflexivity].
Qed.

(** Over the shared queue all the promises are fulfilled only when the
    URLs are all defined, can all be fetched and are pairwise distinct:
    one request is worth one promise. *)
Lemma crawl_fulfilled_needs_distinct_pages web run urls xs :
  shared_queue_run urls run ->
  scrapeCompanyPages web run urls = Fulfilled <$> xs ->
  urls = map Some (fetchable web urls) /\ List.NoDup (fetchable web urls).
Proof.
  intros [Hnd Hq] Hps.
  pose proof (crawl_count web run (map scrapeCompanyPage urls)) as Hcount.
  fold (scrapeCompanyPages web run urls) in Hcount.
  rewrite Hps, fulfilled_all, started_none_fulfilled in Hcount. simpl in Hcount.
  assert (Hlen : length xs = length urls).
  { rewrite <- (length_fmap Fulfilled xs), <- Hps.
    unfold scrapeCompanyPages. rewrite crawl_length, length_map. reflexivity. }
  set (l := List.filter (reachable web) (taken run)) in *.
  assert (Hl : List.NoDup l) by (unfold l; apply List.NoDup_filter; exact Hnd).
  assert (Hincl : incl l (fetchable web urls)).
  { intros u Hu. unfold l in Hu. apply filter_In in Hu as [Hu Hr].
    apply fetchable_in. auto. }
  pose proof (NoDup_incl_length Hl Hincl) as Hle.
  pose proof (fetchable_length web urls) as Hf.
  split.
  - apply fetchable_all. lia.
  - apply (NoDup_incl_NoDup Hl); [lia|exact Hincl].
Qed.

(** Without a rejected run no promise that was not rejected gets
    rejected. *)
Lemma crawl_none_rejected web run : forall ps,
  (forall i e, ~ In (RunRejects i e) run) ->
  Forall (fun p => rejected p = false) ps ->
  Forall (fun p => rejected p = false) (fold_left (crawl_step web) run ps).
Proof.
  induction run as [|ev run IH]; intros ps Hrun Hps; simpl; [exact Hps|].
  apply IH; [intros i e H; apply (Hrun i e); right; exact H|].
  destruct ev as [i u|i e]; simpl.
  - destruct (web u) as [page|]; [|exact Hps].
    apply Forall_alter; [exact Hps|]. intros p _ Hp.
    destruct p; simpl in *; congruence.
  - exfalso. apply (Hrun i e). left. reflexivity.
Qed.

(** *** processCompanyList *)

(** Over URLs that are not all defined, fetched and pairwise distinct,
    [Promise.all] is never fulfilled: [writeToFile] is not reached and
    the run is pending or rejected. *)
Lemma processCompanyList_starved evs web run fs d companies :
  parseCSV evs = Fulfilled companies ->
  shared_queue_run (map company_url companies) run ->
  ~ (map company_url companies
     = map Some (fetchable web (map company_url companies))
     /\ List.NoDup (fetchable web (map company_url companies))) ->
  fst (processCompanyList evs web run fs d) = d
  /\ snd (processCompanyList evs web run fs d) <> Fulfilled tt
  /\ (snd (processCompanyList evs web run fs d) = Pending
      \/ exists j e,
           scrapeCompanyPages web run (map company_url companies) !! j
           = Some (Rejected e)
           /\ snd (processCompanyList evs web run fs d) = Rejected e).
Proof.
  intros Hparse Hq Hurls. unfold processCompanyList. rewrite Hparse.
  destruct (Promise.all _ _) as [|vs|e] eqn:Hall; simpl.
  - repeat split; [discriminate|auto].
  - exfalso. apply Hurls.
    apply all_fulfilled_only_if in Hall as (xs & Hps & _).
    eapply crawl_fulfilled_needs_distinct_pages; eauto.
  - repeat split; [discriminate|]. right.
    apply all_rejected_only_if in Hall as [j Hj]. eauto.
Qed.

(** C1, on the code.  [parseCSV] yields one company per data row, in file
    order.  What [processCompanyList] writes is not tied to that order:
    every crawler works off the one shared queue and its handler takes
    whatever page it is called with, so when the crawler started for Acme
    takes the request of Beta and the other way round, the two profiles
    are written in each other's position; and two rows with the same URL
    are one request in the queue, so one of the two promises is never
    fulfilled and nothing is written. *)
Theorem processCompanyList_order_not_kept :
  (forall rows,
     parseCSV (csv_stream rows) = Fulfilled (map company_of_row rows)
     /\ length (map company_of_row rows) = length rows)
  /\ processCompanyList (csv_stream [Samples.acme_row; Samples.beta_row])
       Samples.web [Takes 0 "https://yc/beta"; Takes 1 "https://yc/acme"]
       Samples.sound_fs Samples.empty_disk
     = (mkDisk true
               (Some (Written [Some (requestHandler Samples.beta_page);
                               Some (requestHandler Samples.acme_page)])),
        Fulfilled tt)
  /\ (forall (row1 row2 : CsvRow) u web run fs d,
        row1 !! "YC URL" = Some u -> row2 !! "YC URL" = Some u ->
        shared_queue_run [Some u; Some u] run ->
        fst (processCompanyList (csv_stream [row1; row2]) web run fs d) = d
        /\ snd (processCompanyList (csv_stream [row1; row2]) web run fs d)
           <> Fulfilled tt).
Proof.
  split; [intros rows; split; [apply parseCSV_rows|apply length_map]|].
  split; [vm_compute; reflexivity|].
  intros row1 row2 u web run fs d H1 H2 Hq.
  destruct (processCompanyList_starved
              (csv_stream [row1; row2]) web run fs d
              (map company_of_row [row1; row2]) (parseCSV_rows _))
    as (Hd & Hn & _); [| |auto].
  - simpl. rewrite H1, H2. exact Hq.
  - simpl. rewrite H1, H2. simpl. intros [Hurls Hnd].
    destruct (reachable web u); simpl in *; [|discriminate].
    inversion Hnd as [|? ? Hin _]. apply Hin. left. reflexivity.
Qed.

Lemma processCompanyList_order_not_kept_witness :
  fst (processCompanyList (csv_stream [Samples.acme_row; Samples.acme_row])
         Samples.web [Takes 0 "https://yc/acme"]
         Samples.sound_fs Samples.empty_disk)
  = Samples.empty_disk.
Proof.
  refine (proj1 (proj2 (proj2 processCompanyList_order_not_kept)
                   Samples.acme_row Samples.acme_row "https://yc/acme"
                   Samples.web [Takes 0 "https://yc/acme"]
                   Samples.sound_fs Samples.empty_disk _ _ _)).
  - vm_compute. reflexivity.
  - vm_compute. reflexivity.
  - split.
    + repeat constructor. simpl. tauto.
    + simpl. intros url [<-|[]]. left. reflexivity.
Defined.

(** C6, on the code.  A fetch that fails does not reject anything: it is
    dealt with inside the crawler, so the promise of that company, or of
    another one the shared queue starves in its place, is never settled.
    With a company whose page cannot be fetched [Promise.all] is never
    fulfilled and [writeToFile] never reached, but unless the run of a
    crawler itself rejects, [processCompanyList] stays pending instead of
    rejecting. *)
Theorem processCompanyList_failed_fetch_never_settles
  evs web run fs d companies i c u :
  parseCSV evs = Fulfilled companies ->
  companies !! i = Some c ->
  company_url c = Some u ->
  web u = None ->
  shared_queue_run (map company_url companies) run ->
  fst (processCompanyList evs web run fs d) = d
  /\ snd (processCompanyList evs web run fs d) <> Fulfilled tt
  /\ ((forall j e, ~ In (RunRejects j e) run) ->
      Forall (fun url => url <> None) (map company_url companies) ->
      snd (processCompanyList evs web run fs d) = Pending).
Proof.
  intros Hparse Hc Hu Hweb Hq.
  destruct (processCompanyList_starved evs web run fs d companies Hparse Hq)
    as (Hd & Hn & Hs).
  { intros [Hurls _].
    assert (Hin : In (Some u) (map company_url companies)).
    { rewrite <- Hu. apply in_map. apply list_elem_of_In.
      eapply list_elem_of_lookup_2. exact Hc. }
    rewrite Hurls in Hin. apply in_map_iff in Hin as (v & [= ->] & Hv).
    apply fetchable_in in Hv as [_ Hr]. unfold reachable in Hr.
    rewrite Hweb in Hr. discriminate. }
  repeat split; [exact Hd|exact Hn|].
  intros Hrun Hdef. destruct Hs as [Hp|(j & e & Hj & _)]; [exact Hp|].
  exfalso.
  assert (Hno : Forall (fun p => rejected p = false)
                       (scrapeCompanyPages web run (map company_url companies))).
  { apply crawl_none_rejected; [exact Hrun|].
    apply List.Forall_forall. intros p Hp.
    apply in_map_iff in Hp as (url & <- & Hurl).
    rewrite List.Forall_forall in Hdef. specialize (Hdef url Hurl).
    destruct url; [reflexivity|congruence]. }
  rewrite List.Forall_forall in Hno.
  specialize (Hno (Rejected e)). simpl in Hno.
  enough (true = false) by discriminate. apply Hno.
  apply list_elem_of_In. eapply list_elem_of_lookup_2. exact Hj.
Qed.

Lemma processCompanyList_failed_fetch_never_settles_witness :
  snd (processCompanyList (csv_stream [Samples.acme_row; Samples.down_row])
         Samples.web [Takes 0 "https://yc/acme"; Takes 1 "https://yc/down"]
         Samples.sound_fs Samples.empty_disk)
  = Pending.
Proof.
  refine (proj2 (proj2
    (processCompanyList_failed_fetch_never_settles
       (csv_stream [Samples.acme_row; Samples.down_row])
       Samples.web [Takes 0 "https://yc/acme"; Takes 1 "https://yc/down"]
       Samples.sound_fs Samples.empty_disk
       (map company_of_row [Samples.acme_row; Samples.down_row])
       1 (company_of_row Samples.down_row) "https://yc/down" _ _ _ _ _)) _ _).
  - apply parseCSV_rows.
  - reflexivity.
  - vm_compute. reflexivity.
  - reflexivity.
  - split.
    + repeat constructor; simpl; intuition discriminate.
    + vm_compute. intros url [<-|[<-|[]]]; auto.
  - intros j e [H|[H|[]]]; discriminate.
  - vm_compute. repeat constructor; discriminate.
Defined.

(** C7.  A page on which a target element is missing is still handled:
    the handler resolves the promise of its crawler with a profile in
    which a missing name, founding date or description reads "N/A", a
    missing or unparsable team size is 0, and with no founder or job
    block the lists are empty. *)
Theorem scrapeCompanyPage_defaults web ps i u page :
  web u = Some page ->
  ps !! i = Some Pending ->
  crawl_step web ps (Takes i u) !! i = Some (Fulfilled (requestHandler page))
  /\ (h1_company_name page = [] -> name (requestHandler page) = "N/A")
  /\ (span_founded page = [] -> founded (requestHandler page) = "N/A")
  /\ (p_description page = [] -> description (requestHandler page) = "N/A")
  /\ (span_team_size page = [] -> teamSize (requestHandler page) = 0%Z)
  /\ (parseInt (text (span_team_size page)) = None ->
      teamSize (requestHandler page) = 0%Z)
  /\ (founder_divs page = [] -> founders (requestHandler page) = [])
  /\ (job_divs page = [] -> jobs (requestHandler page) = []).
Proof.
  intros Hweb Hi. split.
  - simpl. rewrite Hweb, list_lookup_alter_eq, Hi. reflexivity.
  - unfold requestHandler; simpl.
    repeat split; intros ->; reflexivity.
Qed.

Lemma scrapeCompanyPage_defaults_witness :
  crawl_step Samples.web [scrapeCompanyPage (Some "https://yc/bare")]
             (Takes 0 "https://yc/bare") !! 0
  = Some (Fulfilled (mkCompanyData "N/A" "N/A" "N/A" 0 [] [])).
Proof.
  exact (proj1 (scrapeCompanyPage_defaults
                  Samples.web [scrapeCompanyPage (Some "https://yc/bare")]
                  0 "https://yc/bare" Samples.bare_page eq_refl eq_refl)).
Defined.

(** C8, as the claim states it, fails: a row that has no
    [Company Name] column does not make [parseCSV] fail. *)
Lemma parseCSV_accepts_other_headers :
  ~ (forall rows row,
       row ∈ rows -> row !! "Company Name" = None ->
       exists e, parseCSV (csv_stream rows) = Rejected e).
Proof.
  intros H.
  destruct (H [Samples.other_headers_row] Samples.other_headers_row)
    as [e He].
  - constructor.
  - vm_compute. reflexivity.
  - rewrite parseCSV_rows in He. discriminate.
Qed.

(** C8, amended.  [parseCSV] is rejected with the error the parser
    emits, when it emits one before the end; it does not check the
    headers itself: every row the parser delivers yields a company,
    whose name and url are the cells under [Company Name] and [YC URL],
    or undefined where the row has no such column. *)
Theorem parseCSV_rejects_on_parser_error_only :
  (forall rows e rest,
     parseCSV (map Data rows ++ ParseError e :: rest) = Rejected e)
  /\ (forall rows,
        parseCSV (csv_stream rows) = Fulfilled (map company_of_row rows))
  /\ (forall row,
        company_of_row row
        = mkCompany (row !! "Company Name") (row !! "YC URL")).
Proof.
  split; [exact parseCSV_parser_error|].
  split; [exact parseCSV_rows|reflexivity].
Qed.

(** C9, as the claim states it, fails: a team-size element reading [-5]
    gives a negative [teamSize]. *)
Lemma teamSize_can_be_negative :
  ~ (forall page, (0 <= teamSize (requestHandler page))%Z).
Proof.
  intros H. specialize (H Samples.minus_page). vm_compute in H.
  apply H. reflexivity.
Qed.

(** C9, amended.  [teamSize] is an integer, 0 when the team-size element
    is missing or its text does not parse; it is non-negative unless the
    text, after leading white space, starts with a minus sign, and then
    it is at most 0. *)
Theorem teamSize_sign page :
  let t := text (span_team_size page) in
  (span_team_size page = [] -> teamSize (requestHandler page) = 0%Z)
  /\ (parseInt t = None -> teamSize (requestHandler page) = 0%Z)
  /\ ((forall rest, trimStart t <> String "-" rest) ->
      (0 <= teamSize (requestHandler page))%Z)
  /\ (forall rest, trimStart t = String "-" rest ->
      (teamSize (requestHandler page) <= 0)%Z).
Proof.
  intros t. unfold requestHandler; simpl. fold t.
  split; [intros H; unfold t; rewrite H; reflexivity|].
  split; [intros ->; reflexivity|].
  unfold parseInt, number_or.
  split.
  - intros Hpos.
    destruct (trimStart t) as [|c r] eqn:Ht; simpl; [lia|].
    destruct (ascii_dec c "-") as [->|Hc]; [exfalso; eapply Hpos; eauto|].
    assert (Hn : forall s, match leading_digits s None with
                           | Some n => (0 <= 1 * n)%Z | None => True end).
    { intros s. destruct (leading_digits s None) as [n|] eqn:Hs; [|exact I].
      apply leading_digits_nonneg in Hs; [lia|discriminate]. }
    destruct (ascii_dec c "+") as [->|Hc'].
    + specialize (Hn r). destruct (leading_digits r None) as [n|]; [|lia].
      destruct (Z.eqb _ 0); lia.
    + assert (Hsel : (let '(sign, s2) :=
                         match String c r with
                         | String "-"%char r0 => ((-1)%Z, r0)
                         | String "+"%char r0 => (1%Z, r0)
                         | _ => (1%Z, String c r)
                         end in
                       match leading_digits s2 None with
                       | Some n => Some (sign * n)%Z
                       | None => None
                       end)
                      = match leading_digits (String c r) None with
                        | Some n => Some (1 * n)%Z
                        | None => None
                        end).
      { destruct c as [[] [] [] [] [] [] [] []]; try reflexivity;
          congruence. }
      rewrite Hsel. specialize (Hn (String c r)).
      destruct (leading_digits (String c r) None) as [n|]; [|lia].
      destruct (Z.eqb _ 0); lia.
  - intros rest ->.
    destruct (leading_digits rest None) as [n|] eqn:Hs; [|lia].
    apply leading_digits_nonneg in Hs; [|discriminate].
    destruct (Z.eqb _ 0); lia.
Qed.

Lemma teamSize_sign_witness :
  (0 <= teamSize (requestHandler Samples.acme_page))%Z
  /\ (teamSize (requestHandler Samples.nbsp_page) <= 0)%Z
  /\ teamSize (requestHandler Samples.bare_page) = 0%Z.
Proof.
  refine (conj (proj1 (proj2 (proj2 (teamSize_sign Samples.acme_page))) _)
            (conj (proj2 (proj2 (proj2 (teamSize_sign Samples.nbsp_page)))
                     "5" _)
               (proj1 (teamSize_sign Samples.bare_page) eq_refl))).
  - intros rest. discriminate.
  - reflexivity.
Defined.

End ScraperFacts.

(** ** challenge-1: the dump loader *)

Module DumpLoaderFacts.

Import DumpLoader.

(** *** downloadFile *)

(** The destination disappears in exactly one way: the request emits
    'error' and the unlink goes through. *)
Lemma download_step_file url st ev :
  destination_file (download_step url st ev) = None
  <-> destination_file st = None \/ exists err, ev = RequestError err None.
Proof.
  destruct st as [[f|] pi p], ev as [sc|chunk|[ce|]|err [ue|]|]; simpl;
    repeat match goal with
           | |- context [if ?b then _ else _] => destruct b; simpl
           end;
    split; intros H; try discriminate; eauto;
    destruct H as [H|[err' H]]; try discriminate; auto.
Qed.

Lemma download_run_file url evs st :
  destination_file (fold_left (download_step url) evs st) = None
  <-> destination_file st = None \/ exists err, In (RequestError err None) evs.
Proof.
  revert st; induction evs as [|ev evs IH]; intros st; simpl.
  - split; [auto|]. intros [H|[err []]]. exact H.
  - rewrite IH, download_step_file. split.
    + intros [[H|[err ->]]|[err H]]; eauto.
    + intros [H|[err [->|H]]]; eauto.
Qed.

Lemma download_settled_stays url evs st :
  downloaded st <> Pending ->
  downloaded (fold_left (download_step url) evs st) = downloaded st.
Proof.
  revert st; induction evs as [|ev evs IH]; intros st H; simpl; [reflexivity|].
  assert (Hstep : downloaded (download_step url st ev) = downloaded st).
  { destruct st as [f pi p], ev as [sc|chunk|[ce|]|err [ue|]|]; simpl in *;
      repeat match goal with
             | |- context [if ?b then _ else _] => destruct b; simpl
             | |- context [match ?f with Some _ => _ | None => _ end] =>
                 destruct f; simpl
             end;
      destruct p; simpl; congruence. }
  rewrite IH; congruence.
Qed.

(** While the promise is pending the destination file is there. *)
Lemma download_pending_has_file url evs :
  downloaded (downloadFile url evs) = Pending ->
  exists chunks, destination_file (downloadFile url evs) = Some chunks.
Proof.
  unfold downloadFile.
  assert (H : forall evs st,
            (destination_file st = None -> downloaded st <> Pending) ->
            destination_file (fold_left (download_step url) evs st) = None ->
            downloaded (fold_left (download_step url) evs st) <> Pending).
  { clear evs. induction evs as [|ev evs IH]; intros st Hst; simpl; [exact Hst|].
    apply IH.
    destruct st as [[f|] pi p], ev as [sc|chunk|[ce|]|err [ue|]|]; simpl in *;
      repeat match goal with
             | |- context [if ?b then _ else _] => destruct b; simpl
             end;
      intros Hf; try discriminate; auto;
      destruct p; simpl; try discriminate;
      exfalso; apply Hst; reflexivity. }
  intros Hp.
  destruct (destination_file (fold_left _ evs download_init)) as [c|] eqn:Hf;
    [eauto|].
  exfalso. revert Hp. apply (H evs download_init); [discriminate|exact Hf].
Qed.

(** C5, on the code.  A status other than 200 rejects the promise with
    the status error and leaves the (empty) destination file in place,
    and an 'error' of the request, before the response or while the body
    is written, deletes the destination file and rejects with that
    error.  But a connection that is closed before the end of the body,
    the failure that leaves a partial file behind, reaches no handler:
    the partial file stays at the destination and the promise is never
    settled. *)
Theorem downloadFile_misses_premature_close url :
  (forall chunks,
     let evs := Response 200 :: map Body chunks ++ [ResponseAborted] in
     downloaded (downloadFile url evs) = Pending
     /\ destination_file (downloadFile url evs) = Some chunks)
  /\ (forall statusCode, statusCode <> 200%Z ->
        downloaded (downloadFile url [Response statusCode])
        = Rejected (Failed_to_get url statusCode)
        /\ destination_file (downloadFile url [Response statusCode]) = Some []
        /\ forall rest,
             downloaded (downloadFile url (Response statusCode :: rest))
             = Rejected (Failed_to_get url statusCode))
  /\ (forall err,
        downloaded (downloadFile url [RequestError err None]) = Rejected err
        /\ destination_file (downloadFile url [RequestError err None]) = None)
  /\ (forall chunks err,
        let evs := Response 200 :: map Body chunks ++ [RequestError err None] in
        downloaded (downloadFile url evs) = Rejected err
        /\ destination_file (downloadFile url evs) = None).
Proof.
  assert (Hbody : forall cs st, piped st = true ->
            fold_left (download_step url) (map Body cs) st
            = mkDownload (option_map (fun c => c ++ cs) (destination_file st))
                         true (downloaded st)).
  { induction cs as [|c cs IH]; intros [f pi p] Hpi; simpl in *; subst pi.
    - destruct f; simpl; rewrite ?app_nil_r; reflexivity.
    - rewrite IH by reflexivity. simpl.
      destruct f; simpl; rewrite <- ?app_assoc; reflexivity. }
  split; [|split; [|split]].
  - intros chunks evs. subst evs. unfold downloadFile. simpl.
    rewrite fold_left_app, Hbody by reflexivity. split; reflexivity.
  - intros statusCode Hs.
    assert (Hstep : download_step url download_init (Response statusCode)
                    = mkDownload (Some []) false
                                 (Rejected (Failed_to_get url statusCode))).
    { simpl. destruct (Z.eqb_spec statusCode 200); [contradiction|reflexivity]. }
    unfold downloadFile. cbn [fold_left]. rewrite Hstep.
    repeat split. intros rest.
    rewrite download_settled_stays; [reflexivity|discriminate].
  - intros err. split; reflexivity.
  - intros chunks err evs. subst evs. unfold downloadFile. simpl.
    rewrite fold_left_app, Hbody by reflexivity. split; reflexivity.
Qed.

Lemma downloadFile_misses_premature_close_witness :
  downloaded (downloadFile "u" [Response 404])
  = Rejected (Failed_to_get "u" 404)
  /\ destination_file (downloadFile "u" [Response 404]) = Some [].
Proof.
  refine (let H := proj1 (proj2 (downloadFile_misses_premature_close "u"))
                         404%Z _ in
          conj (proj1 H) (proj1 (proj2 H))).
  lia.
Defined.

(** C10.  When the request fails and the unlink of the destination fails
    too, the promise, if still pending, is rejected with the unlink
    error, not with the error of the request. *)
Theorem downloadFile_unlink_error_masks_cause url evs err unlinkErr :
  downloaded (downloadFile url evs) = Pending ->
  downloaded (downloadFile url (evs ++ [RequestError err (Some unlinkErr)]))
  = Rejected unlinkErr.
Proof.
  intros Hp. destruct (download_pending_has_file url evs Hp) as [c Hc].
  unfold downloadFile in *. rewrite fold_left_app. simpl.
  rewrite Hc, Hp. reflexivity.
Qed.

Lemma downloadFile_unlink_error_masks_cause_witness :
  downloaded
    (downloadFile "u" ([Response 200; Body "PK"]
                       ++ [RequestError (External "ECONNRESET")
                                        (Some (External "EPERM"))]))
  = Rejected (External "EPERM").
Proof.
  refine (downloadFile_unlink_error_masks_cause
            "u" [Response 200; Body "PK"] _ _ _).
  reflexivity.
Defined.

(** *** processCSV *)

Section Loading.

Context {Row : Type}.
Implicit Types (st : @load_state Row) (evs : list (@load_event Row)).

(** The store carrying out an insert changes neither the array nor
    what the calls were issued with. *)
Lemma insert_done_rows st k rejection :
  rows (on_insert_done st k rejection) = rows st.
Proof.
  unfold on_insert_done.
  destruct (inserts st !! k) as [c|]; [|reflexivity].
  destruct (finished c); [reflexivity|]. destruct rejection; reflexivity.
Qed.

Lemma insert_done_issued st k rejection :
  issued_batches (on_insert_done st k rejection) = issued_batches st.
Proof.
  unfold on_insert_done, issued_batches.
  destruct (inserts st !! k) as [c|] eqn:Hk; [|reflexivity].
  destruct (finished c); [reflexivity|].
  assert (H : map passed (<[k := mkInsert (awaited c) (passed c) true]> (inserts st))
              = map passed (inserts st)).
  { change (map passed) with (fmap (M := list) (@passed Row)).
    rewrite list_fmap_insert. simpl. apply list_insert_id.
    rewrite list_lookup_fmap, Hk. reflexivity. }
  destruct rejection; simpl; exact H.
Qed.

Lemma insert_done_table st k rejection :
  table (on_insert_done st k rejection) = table st
  \/ (table (on_insert_done st k rejection) = table st ++ rows st
      /\ is_Some (inserts st !! k)).
Proof.
  unfold on_insert_done.
  destruct (inserts st !! k) as [c|]; [|auto].
  destruct (finished c); [auto|]. destruct rejection; simpl; eauto.
Qed.

Lemma on_end_state st :
  rows (on_end st) = rows st
  /\ table (on_end st) = table st
  /\ issued_batches (on_end st)
     = issued_batches st
       ++ (if Nat.ltb 0 (length (rows st)) then [rows st] else []).
Proof.
  unfold on_end, issued_batches.
  destruct (Nat.ltb 0 (length (rows st))); simpl;
    rewrite ?map_app, ?app_nil_r; auto.
Qed.

(** An execution in which the stream is over: only inserts complete. *)
Lemma load_after_end evs st (Q : Row -> Prop) :
  stream_events evs = [] ->
  rows (fold_left load_step evs st) = rows st
  /\ issued_batches (fold_left load_step evs st) = issued_batches st
  /\ (Forall Q (rows st) -> Forall Q (table st) ->
      Forall Q (table (fold_left load_step evs st))).
Proof.
  revert st; induction evs as [|ev evs IH]; intros st Hs; simpl; [auto|].
  destruct ev as [r| |e|k rej]; try discriminate. simpl in Hs.
  change (load_step st (InsertDone k rej)) with (on_insert_done st k rej).
  destruct (IH (on_insert_done st k rej) Hs) as (Hr & Hi & Ht).
  rewrite Hr, Hi, insert_done_rows, insert_done_issued.
  repeat split. intros Hrows Htab. apply Ht.
  - rewrite insert_done_rows. exact Hrows.
  - destruct (insert_done_table st k rej) as [->|[-> _]]; [exact Htab|].
    apply Forall_app. auto.
Qed.

Lemma on_data_state st r :
  let full := Nat.eqb (length (rows st ++ [r])) 100 in
  rows (on_data st r) = (if full then [] else rows st ++ [r])
  /\ issued_batches (on_data st r)
     = issued_batches st ++ (if full then [rows st ++ [r]] else []).
Proof.
  unfold on_data, issued_batches.
  destruct (Nat.eqb (length (rows st ++ [r])) 100); simpl;
    rewrite ?map_app, ?app_nil_r; auto.
Qed.

(** The batches a run issues are decided by the stream alone, whenever
    the store gets to the inserts. *)
Lemma issued_by_stream evs : forall st1 st2,
  rows st1 = rows st2 ->
  issued_batches st1 = issued_batches st2 ->
  rows (fold_left load_step evs st1)
  = rows (fold_left load_step (stream_events evs) st2)
  /\ issued_batches (fold_left load_step evs st1)
     = issued_batches (fold_left load_step (stream_events evs) st2).
Proof.
  induction evs as [|ev evs IH]; intros st1 st2 Hr Hi; [auto|].
  destruct ev as [r| |e|k rej]; simpl; apply IH.
  - destruct (on_data_state st1 r) as [-> _].
    destruct (on_data_state st2 r) as [-> _]. rewrite Hr. reflexivity.
  - destruct (on_data_state st1 r) as [_ ->].
    destruct (on_data_state st2 r) as [_ ->]. rewrite Hr, Hi. reflexivity.
  - destruct (on_end_state st1) as (-> & _ & _).
    destruct (on_end_state st2) as (-> & _ & _). exact Hr.
  - destruct (on_end_state st1) as (_ & _ & ->).
    destruct (on_end_state st2) as (_ & _ & ->). rewrite Hr, Hi. reflexivity.
  - exact Hr.
  - exact Hi.
  - rewrite insert_done_rows. exact Hr.
  - rewrite insert_done_issued. exact Hi.
Qed.

Section File.

Variable data : list Row.

Local Abbreviation load_inv := (DumpLoader.load_inv data).

Lemma rows_after_first_batch st done todo r :
  data = done ++ todo ->
  load_inv st done ->
  inserts st <> [] ->
  In r (rows st) -> In r (skipn 100 data).
Proof.
  intros Hdata (Hcat & Hfull & _ & _) Hne Hin.
  unfold issued_batches in *.
  destruct (inserts st) as [|c cs]; [congruence|]. simpl in *.
  apply Forall_cons in Hfull as [Hlen _].
  rewrite Hdata, <- Hcat, <- !app_assoc.
  rewrite skipn_app, skipn_all2 by lia.
  rewrite Hlen, Nat.sub_diag. simpl.
  apply in_or_app. right. apply in_or_app. left. exact Hin.
Qed.

Lemma load_inv_insert_done st done todo k rejection :
  data = done ++ todo ->
  load_inv st done -> load_inv (on_insert_done st k rejection) done.
Proof.
  intros Hdata Hinv.
  pose proof Hinv as (Hcat & Hfull & Hlen & Htab).
  unfold load_inv.
  rewrite insert_done_rows, insert_done_issued.
  repeat split; try assumption.
  destruct (insert_done_table st k rejection) as [->|[-> [c Hc]]];
    [exact Htab|].
  apply Forall_app. split; [exact Htab|].
  apply List.Forall_forall. intros r Hr.
  apply (rows_after_first_batch st done todo r Hdata Hinv); [|exact Hr].
  intros Hnil. rewrite Hnil in Hc. discriminate.
Qed.

Lemma load_inv_data st done todo r :
  data = done ++ r :: todo ->
  load_inv st done -> load_inv (on_data st r) (done ++ [r]).
Proof.
  intros Hdata (Hcat & Hfull & Hlen & Htab). unfold on_data, load_inv.
  destruct (Nat.eqb_spec (length (rows st ++ [r])) 100) as [H100|H100];
    unfold issued_batches in *; simpl.
  - rewrite map_app, concat_app. simpl. rewrite !app_nil_r.
    rewrite app_assoc, Hcat.
    repeat split; [|lia|exact Htab].
    apply Forall_app. split; [exact Hfull|].
    constructor; [exact H100|constructor].
  - rewrite app_assoc, Hcat.
    rewrite length_app in *. simpl in *.
    repeat split; [exact Hfull|lia|exact Htab].
Qed.

(** The whole execution over a file of rows [data]. *)
Lemma load_run evs : forall st done todo,
  data = done ++ todo ->
  stream_events evs = csv_file todo ->
  load_inv st done ->
  let st' := fold_left load_step evs st in
  concat (issued_batches st') = data
  /\ (exists full partial,
        issued_batches st' = full ++ partial
        /\ Forall (fun b => length b = 100) full
        /\ (partial = []
            \/ exists b, partial = [b] /\ 0 < length b < 100))
  /\ (100 <= length data ->
      Forall (fun r => In r (skipn 100 data)) (table st')).
Proof.
  induction evs as [|ev evs IH]; intros st done todo Hdata Hs Hinv.
  - destruct todo; discriminate.
  - destruct ev as [r| |e|k rej]; simpl in Hs.
    + destruct todo as [|r' todo]; [discriminate|].
      injection Hs as <- Hs. simpl.
      apply (IH _ (done ++ [r]) todo); [|exact Hs|].
      * rewrite <- app_assoc. exact Hdata.
      * eapply load_inv_data; eauto.
    + destruct todo as [|r' todo]; [|discriminate].
      injection Hs as Hs. rewrite app_nil_r in Hdata. subst done.
      pose proof Hinv as (Hcat & Hfull & Hlen & Htab).
      simpl.
      set (Q := fun r => In r (skipn 100 data)).
      destruct (load_after_end evs (on_end st) Q Hs) as (Hr & Hi & Ht).
      destruct (on_end_state st) as (Er & Et & Ei).
      rewrite Er, Et in Ht. rewrite Hi, Ei. clear Hr Hi Er Et Ei.
      destruct (Nat.ltb_spec 0 (length (rows st))) as [Hpos|Hzero].
      * rewrite concat_app. simpl. rewrite app_nil_r.
        repeat split; [exact Hcat| |].
        -- exists (issued_batches st), [rows st].
           repeat split; [exact Hfull|]. right. eauto.
        -- intros H100. apply Ht; [|exact Htab].
           apply List.Forall_forall. intros r Hr'.
           apply (rows_after_first_batch st data []);
             [symmetry; apply app_nil_r|exact Hinv| |exact Hr'].
           intros Hnil. unfold issued_batches in Hcat.
           rewrite Hnil in Hcat. simpl in Hcat.
           rewrite <- Hcat in H100. lia.
      * destruct (rows st) as [|x l] eqn:Hrows; [|simpl in Hzero; lia].
        rewrite !app_nil_r in *.
        repeat split; [exact Hcat| |].
        -- exists (issued_batches st), [].
           rewrite app_nil_r. repeat split; [exact Hfull|]. left. reflexivity.
        -- intros _. apply Ht; [constructor|exact Htab].
    + destruct todo; discriminate.
    + simpl. apply (IH _ done todo Hdata Hs).
      eapply load_inv_insert_done; eauto.
Qed.

Lemma load_init_inv : load_inv load_init [].
Proof. unfold load_inv; simpl. repeat split; auto; lia. Qed.

(** At the moment of the calls the batches are as the comment of the
    source says: the rows of the file cut into runs of 100, then one
    shorter run for what remains. *)
Lemma processCSV_issued_batches evs :
  stream_events evs = csv_file data ->
  concat (issued_batches (processCSV evs)) = data
  /\ exists full partial,
       issued_batches (processCSV evs) = full ++ partial
       /\ Forall (fun b => length b = 100) full
       /\ (partial = [] \/ exists b, partial = [b] /\ 0 < length b < 100).
Proof.
  intros Hs.
  destruct (load_run evs load_init [] data eq_refl Hs load_init_inv)
    as (H1 & H2 & _).
  auto.
Qed.

(** What reaches the table was read from the array after the first
    batch had been cleared from it. *)
Lemma processCSV_table_misses_first_batch evs :
  100 <= length data ->
  stream_events evs = csv_file data ->
  Forall (fun r => In r (skipn 100 data)) (table (processCSV evs)).
Proof.
  intros Hlen Hs.
  destruct (load_run evs load_init [] data eq_refl Hs load_init_inv)
    as (_ & _ & H).
  auto.
Qed.

End File.

End Loading.

(** A run over a file of 250 rows (each row stands for its position in
    the file) in which the store carries out the three inserts after the
    file has been read: three calls, issued with 100, 100 and 50 rows,
    and a table of 150 rows, the last 50 of the file three times. *)
Lemma processCSV_250_rows_run :
  let st := processCSV (csv_file (seq 0 250)
                        ++ [InsertDone 0 None; InsertDone 1 None;
                            InsertDone 2 None]) in
  loaded st = Fulfilled tt
  /\ issued_batches st = [seq 0 100; seq 100 100; seq 200 50]
  /\ table st = seq 200 50 ++ seq 200 50 ++ seq 200 50.
Proof. vm_compute. auto. Qed.

(** The same file with the store carrying out each insert as soon as it
    is issued: the two full batches are read as empty arrays, which the
    query builder rejects as empty queries, so the promise is rejected
    and the table ends with the last 50 rows only. *)
Lemma processCSV_250_rows_prompt_store :
  let empty := Some (External "The query is empty") in
  let st := processCSV (map RowParsed (seq 0 100) ++ [InsertDone 0 empty]
                        ++ map RowParsed (seq 100 100) ++ [InsertDone 1 empty]
                        ++ map RowParsed (seq 200 50)
                        ++ [StreamEnd; InsertDone 2 None]) in
  loaded st = Rejected (External "The query is empty")
  /\ issued_batches st = [seq 0 100; seq 100 100; seq 200 50]
  /\ table st = seq 200 50.
Proof. vm_compute. auto. Qed.

(** C3.  For a file of 250 rows the three insert calls are issued with
    batches of 100, 100 and 50 rows in row order, but the array passed to
    the first two calls is emptied before the store reads it: whenever
    the store carries the inserts out, none of the first 100 rows reaches
    the table, which therefore never holds the 250 rows of the file. *)
Theorem processCSV_250_rows_first_batch_lost (evs : list (@load_event nat)) :
  stream_events evs = csv_file (seq 0 250) ->
  issued_batches (processCSV evs) = [seq 0 100; seq 100 100; seq 200 50]
  /\ Forall (fun r => 100 <= r) (table (processCSV evs))
  /\ table (processCSV evs) <> seq 0 250.
Proof.
  intros Hs.
  assert (Htab : Forall (fun r => 100 <= r) (table (processCSV evs))).
  { pose proof (processCSV_table_misses_first_batch (seq 0 250) evs) as H.
    rewrite length_seq in H. specialize (H ltac:(lia) Hs).
    eapply List.Forall_impl; [|exact H]. intros r Hr.
    change (In r (seq 100 150)) in Hr.
    apply in_seq in Hr. lia. }
  repeat split; [|exact Htab|].
  - unfold processCSV.
    destruct (issued_by_stream evs load_init load_init eq_refl eq_refl)
      as [_ ->].
    rewrite Hs. vm_compute. reflexivity.
  - intros Heq. rewrite Heq in Htab.
    apply Forall_cons in Htab as [H0 _]. lia.
Qed.

Lemma processCSV_250_rows_first_batch_lost_witness :
  table (processCSV (csv_file (seq 0 250)
                     ++ [InsertDone 0 None; InsertDone 1 None;
                         InsertDone 2 None]))
  <> seq 0 250.
Proof.
  refine (proj2 (proj2 (processCSV_250_rows_first_batch_lost
    (csv_file (seq 0 250)
     ++ [InsertDone 0 None; InsertDone 1 None; InsertDone 2 None]) _))).
  vm_compute. reflexivity.
Defined.

(** C4, as the claim states it, fails in its second half: the rejection
    of a batch issued from the 'data' handler can settle after 'end' has
    fired and still reject the promise, as long as the last batch is
    still awaited. *)
Lemma rejection_after_end_is_surfaced :
  ~ (forall (pre post : list (@load_event nat)) k e c,
       inserts (processCSV pre) !! k = Some c ->
       awaited c = false ->
       loaded (processCSV (pre ++ InsertDone k (Some e) :: post)) = Rejected e ->
       ~ In StreamEnd pre).
Proof.
  intros H.
  apply (H (csv_file (seq 0 150)) [] 0 (External "SQLITE_CONSTRAINT")
           (mkInsert false (seq 0 100) false)).
  - vm_compute. reflexivity.
  - reflexivity.
  - vm_compute. reflexivity.
  - apply in_or_app. right. left. reflexivity.
Qed.

(** C4, amended.  There are executions in which a batch issued from the
    'data' handler is rejected by the store and the promise of
    [processCSV] is fulfilled all the same: its rejection reaches the
    promise exactly when it settles while the promise is still pending,
    that is before [resolve()] runs, which is at 'end' when no partial
    batch is left and otherwise when the awaited last insert settles. *)
Theorem processCSV_may_lose_insert_rejection :
  (forall e,
     loaded (processCSV (csv_file (seq 0 100) ++ [InsertDone 0 (Some e)]))
     = Fulfilled tt)
  /\ (forall e,
        loaded (processCSV (csv_file (seq 0 150)
                            ++ [InsertDone 1 None; InsertDone 0 (Some e)]))
        = Fulfilled tt)
  /\ (forall Row (st : @load_state Row) k e c,
        inserts st !! k = Some c -> finished c = false -> awaited c = false ->
        (loaded st = Pending ->
         loaded (load_step st (InsertDone k (Some e))) = Rejected e)
        /\ (forall u, loaded st = Fulfilled u ->
            loaded (load_step st (InsertDone k (Some e))) = Fulfilled u))
  /\ (forall Row (st : @load_state Row),
        rows st = [] -> loaded (load_step st StreamEnd) = resolve tt (loaded st))
  /\ (forall Row (st : @load_state Row),
        rows st <> [] -> loaded (load_step st StreamEnd) = loaded st)
  /\ (forall Row (st : @load_state Row) k c,
        inserts st !! k = Some c -> finished c = false -> awaited c = true ->
        loaded (load_step st (InsertDone k None)) = resolve tt (loaded st)).
Proof.
  split; [intros e; vm_compute; reflexivity|].
  split; [intros e; vm_compute; reflexivity|].
  split.
  { intros Row st k e c Hk Hf Ha. simpl. unfold on_insert_done.
    rewrite Hk, Hf, Ha. simpl.
    split; [intros ->; reflexivity|intros u ->; reflexivity]. }
  split.
  { intros Row st Hr. simpl. unfold on_end. rewrite Hr. reflexivity. }
  split.
  { intros Row st Hr. simpl. unfold on_end.
    destruct (rows st); [congruence|reflexivity]. }
  intros Row st k c Hk Hf Ha. simpl. unfold on_insert_done.
  rewrite Hk, Hf, Ha. reflexivity.
Qed.

Lemma processCSV_may_lose_insert_rejection_witness :
  loaded (load_step (processCSV (csv_file (seq 0 150)))
                    (InsertDone 0 (Some (External "SQLITE_CONSTRAINT"))))
  = Rejected (External "SQLITE_CONSTRAINT").
Proof.
  refine (proj1 (proj1 (proj2 (proj2 processCSV_may_lose_insert_rejection))
            nat (processCSV (csv_file (seq 0 150))) 0
            (External "SQLITE_CONSTRAINT")
            (mkInsert false (seq 0 100) false) _ _ _) _).
  - vm_compute. reflexivity.
  - reflexivity.
  - reflexivity.
  - vm_compute. reflexivity.
Defined.

(** *** processDataDump *)

Section Order.

Context {Row : Type}.
Implicit Types (env : @environment Row) (w : @world Row).

Lemma grows_bind {A B} (c : @task Row A) (k : A -> @task Row B) :
  grows c -> (forall v, grows (k v)) -> grows (bind c k).
Proof.
  intros Hc Hk w. unfold bind. destruct (Hc w) as [l Hl].
  destruct (c w) as [[v| | |] w']; simpl in *; eauto.
  destruct (Hk v w') as [l' Hl']. exists (l ++ l').
  rewrite Hl', Hl, app_assoc. reflexivity.
Qed.

Lemma grows_try_catch (body : @task Row unit) handler :
  grows body -> (forall e, grows (handler e)) ->
  grows (try_catch body handler).
Proof.
  intros Hb Hh w. unfold try_catch. destruct (Hb w) as [l Hl].
  destruct (body w) as [[v|e| |] w']; simpl in *; eauto.
  destruct (Hh e w') as [l' Hl']. exists (l ++ l').
  rewrite Hl', Hl, app_assoc. reflexivity.
Qed.

Lemma grows_same {A} (t : @task Row A) :
  (forall w, calls (snd (t w)) = calls w) -> grows t.
Proof. intros H w. exists []. rewrite app_nil_r. apply H. Qed.

Lemma grows_called s : grows (@called Row s).
Proof. intros w. exists [s]. reflexivity. Qed.

(** What follows a call comes after it in the list. *)
Lemma called_first s (k : @task Row unit) w :
  grows k ->
  exists l, calls (snd (bind (called s) (fun _ => k) w)) = calls w ++ s :: l.
Proof.
  intros Hk. unfold bind, called. simpl.
  destruct (Hk (mkWorld (dump_tar_gz w) (tables w) (calls w ++ [s]) (console w)))
    as [l Hl].
  exists l. rewrite Hl. simpl. rewrite <- app_assoc. reflexivity.
Qed.

Ltac grows_tac :=
  repeat first
    [ apply grows_bind; [|intros _]
    | apply grows_called
    | apply grows_same; intros ?w; unfold print, settles; simpl;
      try destruct (dump_tar_gz _); reflexivity ].

Lemma starts_bind s (c k : @task Row unit) :
  starts_with s c -> grows k -> starts_with s (bind c (fun _ => k)).
Proof.
  intros Hc Hk w. unfold bind. destruct (Hc w) as [l Hl].
  destruct (c w) as [[v| | |] w']; simpl in *; eauto.
  destruct (Hk w') as [l' Hl']. exists (l ++ l').
  rewrite Hl', Hl, <- app_assoc. reflexivity.
Qed.

Lemma starts_try_catch s (body : @task Row unit) handler :
  starts_with s body -> (forall e, grows (handler e)) ->
  starts_with s (try_catch body handler).
Proof.
  intros Hb Hh w. unfold try_catch. destruct (Hb w) as [l Hl].
  destruct (body w) as [[v|e| |] w']; simpl in *; eauto.
  destruct (Hh e w') as [l' Hl']. exists (l ++ l').
  rewrite Hl', Hl, <- app_assoc. reflexivity.
Qed.

Lemma starts_pipeline env : starts_with Extractor (processDataDump env).
Proof.
  unfold processDataDump, await_readdir,
    await_downloadFile, await_setupDatabase, await_processCSV,
    await_destroy.
  apply starts_try_catch;
    [|intros e; apply grows_same; reflexivity].
  apply starts_bind.
  - intros w. apply called_first. grows_tac.
  - unfold await_extractTarGz. grows_tac.
Qed.

Ltac unfold_pipeline :=
  unfold stages_run, processDataDump, try_catch, bind,
    await_extractTarGz, await_readdir, await_downloadFile,
    await_setupDatabase, await_processCSV, await_destroy,
    called, print, settles, of_promise; simpl.

(** C2, on the code.  Every run of [processDataDump] starts by calling
    the extractor, before the downloader: from a directory without
    [dump.tar.gz] that first extraction ends the run and nothing is
    downloaded; with an archive left by an earlier run, that archive
    is unpacked first and the download comes third. *)
Theorem processDataDump_extracts_before_download env :
  (forall dump, exists rest, stages_run env dump = Extractor :: rest)
  /\ stages_run env None = [Extractor]
  /\ (forall old fresh,
        unpack env old = None ->
        downloaded (downloadFile
                      "https://fiber-challenges.s3.amazonaws.com/dump.tar.gz"
                      (network env)) = Fulfilled tt ->
        destination_file (downloadFile
                      "https://fiber-challenges.s3.amazonaws.com/dump.tar.gz"
                      (network env)) = Some fresh ->
        unpack env fresh = None ->
        schema env = None ->
        loaded (processCSV (loading env "customers")) = Fulfilled tt ->
        loaded (processCSV (loading env "organizations")) = Fulfilled tt ->
        stages_run env (Some old)
        = [Extractor; ListDir; Downloader; Extractor; SchemaInitializer;
           BatchLoader "customers"; BatchLoader "organizations"; CloseDb]).
Proof.
  split; [|split].
  - intros dump. unfold stages_run.
    destruct (starts_pipeline env (mkWorld dump [] [] [])) as [l Hl].
    exists l. exact Hl.
  - reflexivity.
  - intros old fresh Hold Hdl Hfile Hfresh Hschema Hc Ho.
    unfold_pipeline.
    rewrite Hold, Hdl, Hfile. simpl.
    rewrite Hfresh, Hschema, Hc, Ho. simpl.
    destruct (closing env); reflexivity.
Qed.

End Order.

Lemma processDataDump_extracts_before_download_witness :
  stages_run Samples.healthy (Some ["stale"])
  = [Extractor; ListDir; Downloader; Extractor; SchemaInitializer;
     BatchLoader "customers"; BatchLoader "organizations"; CloseDb].
Proof.
  refine (proj2 (proj2 (processDataDump_extracts_before_download
                          Samples.healthy))
            ["stale"] ["a"; "b"] _ _ _ _ _ _ _);
    reflexivity.
Defined.

End DumpLoaderFacts.

(** ** More on the scraper *)

Module ScraperBehaviour.

Import Scraper PromiseFacts ScraperFacts Shapes.

(** *** processCompanyList *)



(** X2.  An error of the CSV parser before the end of the file rejects the
    whole run with that error: no page is awaited and nothing is written. *)
Theorem processCompanyList_parser_error rows e rest web run fs d :
  processCompanyList (map Data rows ++ ParseError e :: rest) web run fs d
  = (d, Rejected e).
Proof.
  unfold processCompanyList. rewrite parseCSV_parser_error. reflexivity.
Qed.

(** X3.  When the input file cannot be opened the error is thrown out of the
    read stream, which has no listener: the promises of [parseCSV] and of
    [processCompanyList] stay pending, whatever follows, and nothing is
    written. *)
Theorem processCompanyList_unopenable_file e rest web run fs d :
  parseCSV (FileError e :: rest) = Pending
  /\ uncaught (parse_run (FileError e :: rest)) = Some e
  /\ processCompanyList (FileError e :: rest) web run fs d = (d, Pending).
Proof.
  destruct (parseCSV_file_error e rest) as [Hp Hu].
  unfold processCompanyList. rewrite Hp. auto.
Qed.

(** *** requestHandler *)

Lemma string_or_nonempty s d : d <> "" -> string_or s d <> "".
Proof. destruct s; simpl; [auto|discriminate]. Qed.

(** X4.  The three text fields of a profile are never empty. *)
Theorem requestHandler_text_fields_nonempty page :
  name (requestHandler page) <> ""
  /\ founded (requestHandler page) <> ""
  /\ description (requestHandler page) <> "".
Proof.
  unfold requestHandler; simpl.
  repeat split; apply string_or_nonempty; discriminate.
Qed.

Lemma trimStart_step s :
  trimStart s
  = match space_prefix s with Some r => trimStart r | None => s end.
Proof.
  destruct s as [|c1 r1]; [reflexivity|]. simpl.
  destruct (isWhiteSpace1 c1); [reflexivity|].
  destruct r1 as [|c2 r2]; [reflexivity|].
  destruct (isWhiteSpace2 c1 c2); [reflexivity|].
  destruct r2 as [|c3 r3]; [reflexivity|].
  destruct (isWhiteSpace3 c1 c2 c3); reflexivity.
Qed.

Lemma isBlank_step s :
  isBlank s
  = match s with
    | EmptyString => true
    | _ => match space_prefix s with Some r => isBlank r | None => false end
    end.
Proof.
  destruct s as [|c1 r1]; [reflexivity|]. simpl.
  destruct (isWhiteSpace1 c1); [reflexivity|].
  destruct r1 as [|c2 r2]; [reflexivity|].
  destruct (isWhiteSpace2 c1 c2); [reflexivity|].
  destruct r2 as [|c3 r3]; [reflexivity|].
  destruct (isWhiteSpace3 c1 c2 c3); reflexivity.
Qed.

Lemma space_prefix_shorter s r :
  space_prefix s = Some r -> String.length r < String.length s.
Proof.
  destruct s as [|c1 [|c2 [|c3 r']]]; simpl;
    repeat match goal with
           | |- context [if ?b then _ else _] => destruct b
           end; intros [= <-] || discriminate; simpl; lia.
Qed.

Lemma space_prefix_app s r t :
  space_prefix s = Some r -> space_prefix (s ++ t)%string = Some (r ++ t)%string.
Proof.
  destruct s as [|c1 [|c2 [|c3 r']]]; simpl;
    repeat match goal with
           | |- context [if ?b then _ else _] => destruct b
           end; intros [= <-] || discriminate; reflexivity.
Qed.

Lemma trimStart_blank s : blank s = true -> trimStart s = "".
Proof.
  unfold blank. remember (String.length s) as n eqn:Hn.
  revert s Hn. induction n as [n IH] using lt_wf_ind. intros s Hn.
  rewrite isBlank_step, trimStart_step.
  destruct s as [|c s']; [reflexivity|].
  destruct (space_prefix (String c s')) as [r|] eqn:Hr; [|discriminate].
  intros Hb. apply (IH (String.length r)); [|reflexivity|exact Hb].
  subst n. apply space_prefix_shorter. exact Hr.
Qed.

Lemma trim_blank s : blank s = true -> trim s = "".
Proof. intros H. unfold trim. rewrite trimStart_blank by exact H. reflexivity. Qed.

Lemma parseInt_blank s : blank s = true -> parseInt s = None.
Proof. intros H. unfold parseInt. rewrite trimStart_blank by exact H. reflexivity. Qed.

(** X5.  An element that is there but holds white space only counts as
    missing: the text fields read "N/A" and the team size is 0. *)
Theorem requestHandler_blank_elements page :
  (blank (text (h1_company_name page)) = true ->
   name (requestHandler page) = "N/A")
  /\ (blank (text (span_founded page)) = true ->
      founded (requestHandler page) = "N/A")
  /\ (blank (text (p_description page)) = true ->
      description (requestHandler page) = "N/A")
  /\ (blank (text (span_team_size page)) = true ->
      teamSize (requestHandler page) = 0%Z).
Proof.
  unfold requestHandler; simpl.
  repeat split; intros H;
    rewrite ?(trim_blank _ H), ?(parseInt_blank _ H); reflexivity.
Qed.

Lemma requestHandler_blank_elements_witness :
  name (requestHandler
          (mkPage ["  "; Samples.nbsp] [] [] [] [] [])) = "N/A".
Proof.
  refine (proj1 (requestHandler_blank_elements
                   (mkPage ["  "; Samples.nbsp] [] [] [] [] [])) _).
  reflexivity.
Defined.

Lemma push_founder_run divs acc :
  fold_left push_founder divs acc
  = acc ++ map mkFounder
             (List.filter (fun n => negb (String.eqb n ""))
                (map (fun el => trim (text (founder_h3 el))) divs)).
Proof.
  revert acc; induction divs as [|el divs IH]; intros acc; simpl.
  - rewrite app_nil_r. reflexivity.
  - rewrite IH. unfold push_founder.
    destruct (trim (text (founder_h3 el))) as [|c r]; simpl; [reflexivity|].
    rewrite <- app_assoc. reflexivity.
Qed.

(** X6.  The founders are the founder blocks in document order, each under the
    trimmed text of its headings, the blocks without such a text left
    out: no founder has an empty name and there are at most as many
    founders as blocks. *)
Theorem requestHandler_founders page :
  founders (requestHandler page)
  = map mkFounder
      (List.filter (fun n => negb (String.eqb n ""))
         (map (fun el => trim (text (founder_h3 el))) (founder_divs page)))
  /\ Forall (fun f => founder_name f <> "") (founders (requestHandler page))
  /\ length (founders (requestHandler page)) <= length (founder_divs page).
Proof.
  assert (H : founders (requestHandler page)
              = map mkFounder
                  (List.filter (fun n => negb (String.eqb n ""))
                     (map (fun el => trim (text (founder_h3 el)))
                          (founder_divs page)))).
  { unfold requestHandler; simpl. apply (push_founder_run _ []). }
  rewrite H. repeat split.
  - apply List.Forall_forall. intros f Hf.
    apply in_map_iff in Hf as (n & <- & Hn).
    apply filter_In in Hn as [_ Hn]. simpl.
    destruct n; [discriminate|discriminate].
  - rewrite length_map.
    etransitivity; [apply List.filter_length_le|]. rewrite length_map. lia.
Qed.

Lemma push_job_run divs acc :
  fold_left push_job divs acc
  = acc ++ List.filter
             (fun j => negb (String.eqb (job_title j) "")
                       || negb (String.eqb (job_location j) ""))
             (map (fun el => mkJob (trim (text (job_h4 el)))
                                   (trim (text (job_span_location el))))
                  divs).
Proof.
  revert acc; induction divs as [|el divs IH]; intros acc; simpl.
  - rewrite app_nil_r. reflexivity.
  - rewrite IH. unfold push_job.
    destruct (trim (text (job_h4 el))) as [|c r],
             (trim (text (job_span_location el))) as [|c' r']; simpl;
      rewrite <- ?app_assoc; reflexivity.
Qed.

(** X7.  The jobs are the job blocks in document order, each with its trimmed
    title and location, the blocks with neither left out: every job has
    a title or a location, and there are at most as many jobs as blocks. *)
Theorem requestHandler_jobs page :
  jobs (requestHandler page)
  = List.filter
      (fun j => negb (String.eqb (job_title j) "")
                || negb (String.eqb (job_location j) ""))
      (map (fun el => mkJob (trim (text (job_h4 el)))
                            (trim (text (job_span_location el))))
           (job_divs page))
  /\ Forall (fun j => job_title j <> "" \/ job_location j <> "")
            (jobs (requestHandler page))
  /\ length (jobs (requestHandler page)) <= length (job_divs page).
Proof.
  assert (H : jobs (requestHandler page)
              = List.filter
                  (fun j => negb (String.eqb (job_title j) "")
                            || negb (String.eqb (job_location j) ""))
                  (map (fun el => mkJob (trim (text (job_h4 el)))
                                        (trim (text (job_span_location el))))
                       (job_divs page))).
  { unfold requestHandler; simpl. apply (push_job_run _ []). }
  rewrite H. repeat split.
  - apply List.Forall_forall. intros j Hj.
    apply filter_In in Hj as [_ Hj].
    destruct (job_title j), (job_location j); simpl in Hj;
      try discriminate; [right|left|left]; discriminate.
  - etransitivity; [apply List.filter_length_le|]. rewrite length_map. lia.
Qed.

(** *** The team size *)

Lemma parseInt_cases s :
  parseInt s
  = match trimStart s with
    | EmptyString => None
    | String c r =>
        if Ascii.eqb c "-" then option_map (Z.mul (-1)) (leading_digits r None)
        else if Ascii.eqb c "+" then option_map (Z.mul 1) (leading_digits r None)
        else option_map (Z.mul 1) (leading_digits (String c r) None)
    end.
Proof.
  unfold parseInt. destruct (trimStart s) as [|c r]; [reflexivity|].
  destruct c as [[] [] [] [] [] [] [] []]; simpl;
    try match goal with
        | |- context [leading_digits ?x ?a] => destruct (leading_digits x a)
        end; reflexivity.
Qed.

Lemma trimStart_after_blank ws s :
  blank ws = true -> trimStart (ws ++ s)%string = trimStart s.
Proof.
  unfold blank. remember (String.length ws) as n eqn:Hn.
  revert ws Hn. induction n as [n IH] using lt_wf_ind. intros ws Hn.
  rewrite isBlank_step.
  destruct ws as [|c ws']; [reflexivity|].
  destruct (space_prefix (String c ws')) as [r|] eqn:Hr; [|discriminate].
  intros Hb. rewrite trimStart_step, (space_prefix_app _ r s Hr).
  apply (IH (String.length r)); [|reflexivity|exact Hb].
  subst n. apply space_prefix_shorter. exact Hr.
Qed.

Lemma plain_no_space c r :
  plain c = true -> space_prefix (String c r) = None.
Proof.
  unfold plain. intros H. apply andb_true_iff in H as [Hlt Hws].
  apply Nat.ltb_lt in Hlt. apply negb_true_iff in Hws.
  assert (H2 : forall c2, isWhiteSpace2 c c2 = false).
  { intros c2. unfold isWhiteSpace2.
    destruct (Nat.eqb_spec (nat_of_ascii c) 194); [lia|reflexivity]. }
  assert (H3 : forall c2 c3, isWhiteSpace3 c c2 c3 = false).
  { intros c2 c3. unfold isWhiteSpace3. cbv zeta.
    destruct (Nat.eqb_spec (nat_of_ascii c) 225); [lia|].
    destruct (Nat.eqb_spec (nat_of_ascii c) 226); [lia|].
    destruct (Nat.eqb_spec (nat_of_ascii c) 227); [lia|].
    destruct (Nat.eqb_spec (nat_of_ascii c) 239); [lia|reflexivity]. }
  simpl. rewrite Hws.
  destruct r as [|c2 [|c3 r]]; rewrite ?H2, ?H3; reflexivity.
Qed.

Lemma trimStart_before s t c r :
  trimStart s = String c r -> plain c = true ->
  trimStart (s ++ t)%string = String c (r ++ t)%string.
Proof.
  remember (String.length s) as n eqn:Hn.
  revert s Hn. induction n as [n IH] using lt_wf_ind. intros s Hn.
  rewrite (trimStart_step s), (trimStart_step (s ++ t)).
  destruct (space_prefix s) as [s'|] eqn:Hs.
  - rewrite (space_prefix_app _ _ t Hs). intros H Hc.
    apply (IH (String.length s')); [|reflexivity|exact H|exact Hc].
    subst n. apply space_prefix_shorter. exact Hs.
  - intros -> Hc.
    change (String c r ++ t)%string with (String c (r ++ t)%string).
    rewrite (plain_no_space c (r ++ t)%string Hc). reflexivity.
Qed.

Lemma leading_digits_before s t acc :
  no_digit_ahead t = true ->
  leading_digits (s ++ t)%string acc = leading_digits s acc.
Proof.
  intros Ht. revert acc; induction s as [|c s IH]; intros acc; simpl.
  - destruct t as [|c t]; simpl in *; [reflexivity|].
    destruct (digit_of c); [discriminate|reflexivity].
  - destruct (digit_of c); [apply IH|reflexivity].
Qed.

Lemma digit_plain c d : digit_of c = Some d -> plain c = true.
Proof.
  unfold digit_of, plain, isWhiteSpace1. cbv zeta.
  destruct (Nat.leb_spec 48 (nat_of_ascii c)); simpl; [|discriminate].
  destruct (Nat.leb_spec (nat_of_ascii c) 57); simpl; [|discriminate].
  intros _. apply andb_true_iff. split; [apply Nat.ltb_lt; lia|].
  apply negb_true_iff. apply orb_false_iff. split.
  - apply andb_false_iff. right. apply Nat.leb_gt. lia.
  - apply Nat.eqb_neq. lia.
Qed.

(** A text in which [parseInt] finds a numeral starts, after its white
    space, with a sign or a digit. *)
Lemma numeral_head s :
  parseInt s <> None ->
  exists c r, trimStart s = String c r /\ plain c = true.
Proof.
  rewrite parseInt_cases.
  destruct (trimStart s) as [|c r]; [congruence|]. intros H.
  exists c, r. split; [reflexivity|]. revert H.
  destruct (Ascii.eqb_spec c "-") as [->|_]; [reflexivity|].
  destruct (Ascii.eqb_spec c "+") as [->|_]; [reflexivity|].
  simpl. destruct (digit_of c) as [d|] eqn:Hd; [|simpl; congruence].
  intros _. eapply digit_plain. exact Hd.
Qed.

(** X8.  The team size is read from the numeral the text starts with: white
    space before it does not count, and neither does whatever follows
    it, as long as that does not go on with a digit. *)
Theorem teamSize_reads_leading_numeral page page' ws t :
  blank ws = true ->
  parseInt (text (span_team_size page)) <> None ->
  no_digit_ahead t = true ->
  text (span_team_size page')
  = (ws ++ text (span_team_size page) ++ t)%string ->
  teamSize (requestHandler page') = teamSize (requestHandler page).
Proof.
  intros Hws Hs Ht Htext. unfold requestHandler; simpl. f_equal.
  destruct (numeral_head _ Hs) as (c & r & Hc & Hplain).
  rewrite Htext, !parseInt_cases, trimStart_after_blank by exact Hws.
  rewrite (trimStart_before _ t c r Hc Hplain), Hc.
  destruct (Ascii.eqb c "-"); [rewrite leading_digits_before by exact Ht; reflexivity|].
  destruct (Ascii.eqb c "+"); [rewrite leading_digits_before by exact Ht; reflexivity|].
  change (String c (r ++ t)%string) with (String c r ++ t)%string.
  rewrite leading_digits_before by exact Ht. reflexivity.
Qed.

Lemma teamSize_reads_leading_numeral_witness :
  teamSize (requestHandler
              (mkPage [] [] [] [Samples.nbsp; "12"; " people"] [] []))
  = teamSize (requestHandler (mkPage [] [] [] ["12"] [] [])).
Proof.
  refine (teamSize_reads_leading_numeral
            (mkPage [] [] [] ["12"] [] [])
            (mkPage [] [] [] [Samples.nbsp; "12"; " people"] [] [])
            Samples.nbsp " people" _ _ _ _).
  - reflexivity.
  - discriminate.
  - reflexivity.
  - reflexivity.
Defined.

End ScraperBehaviour.

(** ** More on the dump loader *)

Module DumpLoaderBehaviour.

Import DumpLoader DumpLoaderFacts.

(** *** downloadFile *)

Lemma download_body_run url chunks st :
  piped st = true ->
  fold_left (download_step url) (map Body chunks) st
  = mkDownload (option_map (fun c => c ++ chunks) (destination_file st))
               true (downloaded st).
Proof.
  revert st; induction chunks as [|c cs IH]; intros [f pi p] Hpi;
    simpl in *; subst pi.
  - destruct f; simpl; rewrite ?app_nil_r; reflexivity.
  - rewrite IH by reflexivity. simpl.
    destruct f; simpl; rewrite <- ?app_assoc; reflexivity.
Qed.

(** X9.  A download that is answered with 200 and runs to its end fulfils the
    promise and leaves at the destination exactly the body, chunk after
    chunk, whatever was there before. *)
Theorem downloadFile_stores_body url chunks :
  let st := downloadFile url (Response 200 :: map Body chunks ++ [Finish None]) in
  downloaded st = Fulfilled tt /\ destination_file st = Some chunks.
Proof.
  unfold downloadFile. simpl.
  rewrite fold_left_app, download_body_run by reflexivity.
  split; reflexivity.
Qed.

(** X10.  When closing the written file fails the promise is rejected with the
    error of the close, and the file, though complete, is left at the
    destination: only an error of the request removes it. *)
Theorem downloadFile_close_error_keeps_file url chunks err :
  let st := downloadFile url
              (Response 200 :: map Body chunks ++ [Finish (Some err)]) in
  downloaded st = Rejected err /\ destination_file st = Some chunks.
Proof.
  unfold downloadFile. simpl.
  rewrite fold_left_app, download_body_run by reflexivity.
  split; reflexivity.
Qed.

Lemma download_fulfilled_run url evs : forall st u,
  downloaded (fold_left (download_step url) evs st) = Fulfilled u ->
  downloaded st = Fulfilled u
  \/ (In (Finish None) evs /\ (piped st = true \/ In (Response 200) evs)).
Proof.
  induction evs as [|ev evs IH]; intros st u H; simpl in *; [auto|].
  destruct (IH _ _ H) as [Hd|[Hfin Hp]].
  - destruct st as [f pi p], ev as [sc|chunk|[ce|]|err [ue|]|]; simpl in *;
      repeat match goal with
             | H : context [if ?b then _ else _] |- _ => destruct b eqn:?; simpl in H
             | H : context [match ?f with Some _ => _ | None => _ end] |- _ =>
                 destruct f; simpl in H
             end;
      destruct p; simpl in *; try discriminate; auto.
  - right. split; [auto|].
    destruct Hp as [Hp|Hp]; [|auto].
    destruct st as [f pi p], ev as [sc|chunk|[ce|]|err [ue|]|]; simpl in *;
      repeat match goal with
             | H : context [if ?b then _ else _] |- _ => destruct b eqn:?; simpl in H
             | H : context [match ?f with Some _ => _ | None => _ end] |- _ =>
                 destruct f; simpl in H
             end; auto.
    right. left. f_equal.
    apply Z.eqb_eq. apply negb_false_iff. assumption.
Qed.

(** X11.  The promise of a download is fulfilled only after a response with
    status 200 and the closing of the written file without error. *)
Theorem downloadFile_fulfilled_only_after_200 url evs :
  downloaded (downloadFile url evs) = Fulfilled tt ->
  In (Response 200) evs /\ In (Finish None) evs.
Proof.
  intros H. apply download_fulfilled_run in H as [H|[Hfin [H|H]]];
    try discriminate; auto.
Qed.

Lemma downloadFile_fulfilled_only_after_200_witness :
  In (Response 200) [Response 200; Body "x"; Finish None]
  /\ In (Finish None) [Response 200; Body "x"; Finish None].
Proof.
  refine (downloadFile_fulfilled_only_after_200
            "u" [Response 200; Body "x"; Finish None] _).
  reflexivity.
Defined.

(** X12.  The promise of a download settles once: after it is fulfilled or
    rejected no later event changes it. *)
Theorem downloadFile_settles_once url evs rest :
  downloaded (downloadFile url evs) <> Pending ->
  downloaded (downloadFile url (evs ++ rest))
  = downloaded (downloadFile url evs).
Proof.
  intros H. unfold downloadFile in *. rewrite fold_left_app.
  apply download_settled_stays. exact H.
Qed.

Lemma downloadFile_settles_once_witness :
  downloaded (downloadFile "u" ([Response 404]
                                ++ [RequestError (External "ECONNRESET") None]))
  = downloaded (downloadFile "u" [Response 404]).
Proof.
  refine (downloadFile_settles_once "u" [Response 404] _ _).
  discriminate.
Defined.

(** *** processCSV *)

Section Batches.

Context {Row : Type}.
Implicit Types (st : @load_state Row) (evs : list (@load_event Row)).

Lemma full_batches_length (full : list (list Row)) :
  Forall (fun b => length b = 100) full ->
  length (concat full) = 100 * length full.
Proof.
  induction 1 as [|b full Hb _ IH]; simpl; [reflexivity|].
  rewrite length_app, Hb, IH. lia.
Qed.

(** X13.  Whenever the store gets to the inserts, the arrays the insert calls
    are issued with are the rows of the file, in order, cut into runs of
    100 with one shorter run for what remains: one call for every 100
    rows or part thereof. *)
Theorem processCSV_batches_cover_file (data : list Row) evs :
  stream_events evs = csv_file data ->
  concat (issued_batches (processCSV evs)) = data
  /\ Forall (fun b => 0 < length b <= 100) (issued_batches (processCSV evs))
  /\ length (issued_batches (processCSV evs)) = (length data + 99) / 100.
Proof.
  intros Hs.
  destruct (processCSV_issued_batches data evs Hs)
    as (Hcat & full & partial & Hiss & Hfull & Hpart).
  rewrite Hiss in *. split; [exact Hcat|].
  pose proof (full_batches_length full Hfull) as Hlen.
  assert (Hdata : length data = 100 * length full + length (concat partial)).
  { rewrite <- Hcat, concat_app, length_app, Hlen. reflexivity. }
  split.
  - apply Forall_app. split.
    + eapply List.Forall_impl; [|exact Hfull]. simpl. intros b Hb. lia.
    + destruct Hpart as [->|(b & -> & Hb)]; constructor; [lia|constructor].
  - rewrite length_app, Hdata. clear Hdata Hcat Hiss Hlen.
    generalize (length full) as n. intros n.
    destruct Hpart as [->|(b & -> & Hb)].
    + change (length (concat (@nil (list Row)))) with 0.
      change (length (@nil (list Row))) with 0.
      apply Nat.div_unique with (r := 99); lia.
    + change (concat [b]) with (b ++ []). rewrite app_nil_r.
      change (length [b]) with 1.
      apply Nat.div_unique with (r := length b - 1); lia.
Qed.

Lemma load_short_run (l : list Row) : forall r ins tb p,
  length r + length l < 100 ->
  fold_left load_step (map RowParsed l) (mkLoad r ins tb p)
  = mkLoad (r ++ l) ins tb p.
Proof.
  induction l as [|x l IH]; intros r ins tb p Hlen; simpl in *.
  - rewrite app_nil_r. reflexivity.
  - unfold on_data; simpl.
    destruct (Nat.eqb_spec (length (r ++ [x])) 100) as [H|H].
    + rewrite length_app in H. simpl in H. lia.
    + rewrite IH by (rewrite length_app; simpl; lia).
      rewrite <- app_assoc. reflexivity.
Qed.

(** X14.  A file of fewer than 100 rows is loaded with a single insert, issued
    at the end of the stream and awaited: once the store accepts it the
    table holds the rows of the file, in order, and the promise is
    fulfilled; an empty file is fulfilled at the end of the stream
    without any insert. *)
Theorem processCSV_short_file (data : list Row) :
  length data < 100 ->
  (data = [] ->
   loaded (processCSV (csv_file data)) = Fulfilled tt
   /\ inserts (processCSV (csv_file data)) = [])
  /\ (data <> [] ->
      loaded (processCSV (csv_file data)) = Pending
      /\ let st := processCSV (csv_file data ++ [InsertDone 0 None]) in
         issued_batches st = [data]
         /\ table st = data
         /\ loaded st = Fulfilled tt).
Proof.
  intros Hlen. split.
  - intros ->. split; reflexivity.
  - intros Hne. unfold processCSV, csv_file.
    rewrite <- app_assoc, !fold_left_app.
    unfold load_init. rewrite load_short_run by (simpl; lia). simpl.
    unfold on_end; simpl.
    destruct data as [|x l]; [congruence|]. simpl.
    repeat split.
Qed.

(** X15.  When the store rejects the awaited last insert, the promise of
    [processCSV] is rejected with that error and the rows of that batch
    are not in the table. *)
Theorem processCSV_last_insert_rejected (data : list Row) e :
  data <> [] -> length data < 100 ->
  let st := processCSV (csv_file data ++ [InsertDone 0 (Some e)]) in
  loaded st = Rejected e /\ table st = [].
Proof.
  intros Hne Hlen. unfold processCSV, csv_file.
  rewrite <- app_assoc, !fold_left_app.
  unfold load_init. rewrite load_short_run by (simpl; lia). simpl.
  unfold on_end; simpl.
  destruct data as [|x l]; [congruence|]. simpl. split; reflexivity.
Qed.

Lemma load_settled_stays evs : forall st,
  loaded st <> Pending -> loaded (fold_left load_step evs st) = loaded st.
Proof.
  induction evs as [|ev evs IH]; intros st H; simpl; [reflexivity|].
  assert (Hstep : loaded (load_step st ev) = loaded st).
  { destruct ev as [r| |e|k rej]; simpl.
    - unfold on_data. destruct (Nat.eqb _ 100); reflexivity.
    - unfold on_end. destruct (Nat.ltb _ _); simpl; [reflexivity|].
      destruct (loaded st); simpl; congruence.
    - destruct (loaded st); simpl; congruence.
    - unfold on_insert_done.
      destruct (inserts st !! k) as [c|]; [|reflexivity].
      destruct (finished c); [reflexivity|].
      destruct rej, (awaited c), (loaded st); simpl; congruence. }
  rewrite IH; congruence.
Qed.

Lemma load_rows_pending (l : list Row) : forall st,
  loaded (fold_left load_step (map RowParsed l) st) = loaded st.
Proof.
  induction l as [|x l IH]; intros st; simpl; [reflexivity|].
  rewrite IH. unfold on_data. destruct (Nat.eqb _ 100); reflexivity.
Qed.

(** X16.  An error of the parser rejects the promise of [processCSV]
    with that error if the promise is still pending then, which it is
    as long as only rows have been read; if an insert was rejected
    before, the promise keeps the error of that insert.  Nothing that
    follows changes the outcome. *)
Theorem processCSV_parser_error evs e rest :
  loaded (processCSV (evs ++ StreamError e :: rest))
  = reject e (loaded (processCSV evs))
  /\ (loaded (processCSV evs) = Pending ->
      loaded (processCSV (evs ++ StreamError e :: rest)) = Rejected e)
  /\ (forall e0, loaded (processCSV evs) = Rejected e0 ->
      loaded (processCSV (evs ++ StreamError e :: rest)) = Rejected e0)
  /\ (forall data : list Row,
        loaded (processCSV (map RowParsed data ++ StreamError e :: rest))
        = Rejected e).
Proof.
  assert (H : forall pre,
            loaded (processCSV (pre ++ StreamError e :: rest))
            = reject e (loaded (processCSV pre))).
  { intros pre. unfold processCSV. rewrite fold_left_app. simpl.
    rewrite load_settled_stays; simpl; [reflexivity|].
    destruct (loaded (fold_left load_step pre load_init)); discriminate. }
  split; [apply H|]. split; [|split].
  - intros Hp. rewrite H, Hp. reflexivity.
  - intros e0 Hr. rewrite H, Hr. reflexivity.
  - intros data. rewrite H. unfold processCSV.
    rewrite load_rows_pending. reflexivity.
Qed.

(** X17.  The promise of [processCSV] settles once: after it is fulfilled or
    rejected neither the stream nor the store changes it. *)
Theorem processCSV_settles_once evs rest :
  loaded (processCSV evs) <> Pending ->
  loaded (processCSV (evs ++ rest)) = loaded (processCSV evs).
Proof.
  intros H. unfold processCSV in *. rewrite fold_left_app.
  apply load_settled_stays. exact H.
Qed.

Lemma load_fulfilled_run evs : forall st u,
  loaded (fold_left load_step evs st) = Fulfilled u ->
  loaded st = Fulfilled u
  \/ In StreamEnd evs
  \/ exists c, In c (inserts st) /\ awaited c = true.
Proof.
  induction evs as [|ev evs IH]; intros st u H; simpl in *; [auto|].
  destruct (IH _ _ H) as [Hd|[Hend|(c & Hc & Ha)]]; [| auto |].
  - destruct ev as [r| |e|k rej]; simpl in Hd.
    + unfold on_data in Hd. destruct (Nat.eqb _ 100); auto.
    + auto.
    + destruct (loaded st); simpl in Hd; try discriminate; auto.
    + unfold on_insert_done in Hd.
      destruct (inserts st !! k) as [c|] eqn:Hk; [|auto].
      destruct (finished c); [auto|].
      destruct (awaited c) eqn:Ha.
      * right. right. exists c. split; [|exact Ha].
        apply list_elem_of_In. eapply list_elem_of_lookup_2. exact Hk.
      * destruct rej, (loaded st); simpl in Hd; try discriminate; auto.
  - destruct ev as [r| |e|k rej]; simpl in Hc.
    + unfold on_data in Hc. destruct (Nat.eqb _ 100); simpl in Hc.
      * apply in_app_or in Hc as [Hc|[<-|[]]]; [|discriminate].
        right. right. eauto.
      * right. right. eauto.
    + auto.
    + right. right. eauto.
    + unfold on_insert_done in Hc.
      destruct (inserts st !! k) as [c0|] eqn:Hk; [|right; right; eauto].
      destruct (finished c0); [right; right; eauto|].
      assert (Hin : In c (<[k := mkInsert (awaited c0) (passed c0) true]> (inserts st)))
        by (destruct rej; exact Hc).
      apply list_elem_of_In, list_elem_of_lookup in Hin as [j Hj].
      destruct (decide (k = j)) as [<-|Hne].
      * rewrite list_lookup_insert_eq in Hj by (eapply lookup_lt_Some; eauto).
        injection Hj as <-. simpl in Ha. right. right. exists c0.
        split; [|exact Ha].
        apply list_elem_of_In. eapply list_elem_of_lookup_2. exact Hk.
      * rewrite list_lookup_insert_ne in Hj by exact Hne.
        right. right. exists c. split; [|exact Ha].
        apply list_elem_of_In. eapply list_elem_of_lookup_2. exact Hj.
Qed.

(** X18.  The promise of [processCSV] is never fulfilled before the stream has
    ended. *)
Theorem processCSV_fulfilled_only_after_end evs :
  loaded (processCSV evs) = Fulfilled tt -> In StreamEnd evs.
Proof.
  intros H. apply load_fulfilled_run in H as [H|[H|(c & [] & _)]];
    [discriminate|exact H].
Qed.

Lemma load_rows_from_stream (Q : Row -> Prop) evs : forall st,
  (forall r, In (RowParsed r) evs -> Q r) ->
  Forall Q (rows st) -> Forall Q (table st) ->
  Forall Q (rows (fold_left load_step evs st))
  /\ Forall Q (table (fold_left load_step evs st)).
Proof.
  induction evs as [|ev evs IH]; intros st HQ Hr Ht; simpl; [auto|].
  apply IH; [intros r Hin; apply HQ; right; exact Hin| |].
  - destruct ev as [r| |e|k rej]; simpl; try assumption.
    + unfold on_data. destruct (Nat.eqb _ 100); simpl; [constructor|].
      apply Forall_app. split; [exact Hr|].
      constructor; [apply HQ; left; reflexivity|constructor].
    + unfold on_end. destruct (Nat.ltb _ _); exact Hr.
    + rewrite insert_done_rows. exact Hr.
  - destruct ev as [r| |e|k rej]; simpl; try assumption.
    + unfold on_data. destruct (Nat.eqb _ 100); exact Ht.
    + unfold on_end. destruct (Nat.ltb _ _); exact Ht.
    + destruct (insert_done_table st k rej) as [->|[-> _]]; [exact Ht|].
      apply Forall_app. auto.
Qed.

(** X19.  Every row in the table is a row the parser delivered: whatever the
    store reads from the shared array, it is never a row that was not in
    the file. *)
Theorem processCSV_table_rows_from_file evs r :
  In r (table (processCSV evs)) -> In (RowParsed r) evs.
Proof.
  intros Hin.
  destruct (load_rows_from_stream (fun r => In (RowParsed r) evs) evs load_init)
    as [_ Ht]; [auto|constructor|constructor|].
  rewrite List.Forall_forall in Ht. apply Ht. exact Hin.
Qed.

End Batches.

Lemma processCSV_parser_error_witness :
  loaded (processCSV (map RowParsed [1; 2; 3]
                      ++ StreamError (External "bad quote") :: [StreamEnd]))
  = Rejected (External "bad quote")
  /\ loaded (processCSV
               ((map RowParsed (seq 0 100)
                 ++ [InsertDone 0 (Some (External "full"))])
                ++ StreamError (External "bad quote") :: []))
     = Rejected (External "full").
Proof.
  split.
  - apply (proj1 (proj2 (processCSV_parser_error
                           (map RowParsed [1; 2; 3])
                           (External "bad quote") [StreamEnd]))).
    reflexivity.
  - apply (proj1 (proj2 (proj2 (processCSV_parser_error
                           (map RowParsed (seq 0 100)
                            ++ [InsertDone 0 (Some (External "full"))])
                           (External "bad quote") [])))).
    vm_compute. reflexivity.
Defined.

Lemma processCSV_short_file_witness :
  table (processCSV (csv_file [7; 8; 9] ++ [InsertDone 0 None])) = [7; 8; 9].
Proof.
  refine (proj1 (proj2 (proj2 (proj2 (processCSV_short_file [7; 8; 9] _) _)))).
  - simpl. lia.
  - discriminate.
Defined.

Lemma processCSV_last_insert_rejected_witness :
  loaded (processCSV (csv_file [7; 8; 9]
                      ++ [InsertDone 0 (Some (External "SQLITE_CONSTRAINT"))]))
  = Rejected (External "SQLITE_CONSTRAINT").
Proof.
  refine (proj1 (processCSV_last_insert_rejected
                   [7; 8; 9] (External "SQLITE_CONSTRAINT") _ _)).
  - discriminate.
  - simpl. lia.
Defined.

Lemma processCSV_batches_cover_file_witness :
  length (issued_batches (processCSV (csv_file (seq 0 250))))
  = (length (seq 0 250) + 99) / 100.
Proof.
  refine (proj2 (proj2 (processCSV_batches_cover_file
                          (seq 0 250) (csv_file (seq 0 250)) _))).
  vm_compute. reflexivity.
Defined.

Lemma processCSV_settles_once_witness :
  loaded (processCSV ([StreamError (External "bad row")] ++ [@StreamEnd nat]))
  = loaded (processCSV [@StreamError nat (External "bad row")]).
Proof.
  refine (processCSV_settles_once [StreamError (External "bad row")] _ _).
  discriminate.
Defined.

Lemma processCSV_fulfilled_only_after_end_witness :
  In StreamEnd (@csv_file nat []).
Proof.
  refine (processCSV_fulfilled_only_after_end (csv_file []) _).
  reflexivity.
Defined.

Lemma processCSV_table_rows_from_file_witness :
  In (RowParsed 8) (csv_file [7; 8; 9] ++ [InsertDone 0 None]).
Proof.
  refine (processCSV_table_rows_from_file
            (csv_file [7; 8; 9] ++ [InsertDone 0 None]) 8 _).
  vm_compute. auto.
Defined.

(** *** processDataDump *)

Section Runs.

Context {Row : Type}.
Implicit Types (env : @environment Row).

Ltac run_pipeline :=
  unfold stages_run, processDataDump,
    await_extractTarGz, await_readdir, await_downloadFile,
    await_setupDatabase, await_processCSV, await_destroy;
  unfold try_catch, bind, called, print, settles, of_promise; simpl;
  repeat match goal with
         | |- context [match ?x with _ => _ end] =>
             lazymatch x with
             | context [match _ with _ => _ end] => fail
             | _ => destruct x eqn:?; simpl
             end
         end.

(** X20.  The helpers always run in one fixed order, each at most the number
    of times the order shows, and a run stops at the first that fails:
    the tables are created only after the second extraction, customers
    are loaded before organizations, and the database is closed last. *)
Theorem processDataDump_fixed_order env dump :
  stages_run env dump
  `prefix_of` [Extractor; ListDir; Downloader; Extractor; SchemaInitializer;
               BatchLoader "customers"; BatchLoader "organizations"; CloseDb].
Proof.
  run_pipeline; eexists; reflexivity.
Qed.

(** X21.  [processDataDump] never rejects: a rejection of any helper is caught
    and logged, and the returned promise is fulfilled. *)
Theorem processDataDump_never_rejects env w e :
  fst (processDataDump env w) <> Throw e.
Proof.
  destruct w as [dump tbs cs con].
  run_pipeline; discriminate.
Qed.

(** X22.  The database handle is destroyed exactly in the runs that print the
    success message: when the schema or a load fails after the database
    was opened, [db.destroy()] is never called. *)
Theorem processDataDump_closes_db_only_on_success env dump :
  let w := snd (processDataDump env (mkWorld dump [] [] [])) in
  In CloseDb (calls w) <-> In Data_successfully_processed (console w).
Proof.
  run_pipeline; split; intros H;
    repeat (destruct H as [H|H]; try discriminate);
    try contradiction; auto 10.
Qed.

End Runs.

End DumpLoaderBehaviour.

(** ** The schema and the extraction *)

Module SchemaFacts.

Import Schema.

Section Tables.

Context {Row : Type}.
Implicit Types (db : gmap string (@table_def Row)).

Lemma setupDatabase_tables db :
  setupDatabase db
  = inl (<["organizations" := mkTable organizations_columns []]>
           (<["customers" := mkTable customers_columns []]>
              (delete "organizations" (delete "customers" db)))).
Proof.
  unfold setupDatabase, createTable, dropTableIfExists.
  rewrite lookup_delete_ne by discriminate.
  rewrite lookup_delete_eq.
  rewrite lookup_insert_ne by discriminate.
  rewrite lookup_delete_eq. reflexivity.
Qed.


(** X24.  Setting the database up a second time changes nothing: the result of
    one run is the result of two. *)
Theorem setupDatabase_idempotent db db' :
  setupDatabase db = inl db' -> setupDatabase db' = inl db'.
Proof.
  rewrite !setupDatabase_tables. intros [= <-]. f_equal.
  apply map_eq. intros name.
  destruct (decide (name = "organizations")) as [->|Ho].
  - rewrite !lookup_insert_eq. reflexivity.
  - rewrite !(lookup_insert_ne _ "organizations") by congruence.
    destruct (decide (name = "customers")) as [->|Hc].
    + rewrite !lookup_insert_eq. reflexivity.
    + rewrite !(lookup_insert_ne _ "customers") by congruence.
      rewrite !lookup_delete_ne by congruence.
      rewrite !lookup_insert_ne by congruence.
      rewrite !lookup_delete_ne by congruence. reflexivity.
Qed.

End Tables.

Lemma setupDatabase_idempotent_witness :
  setupDatabase
    (<["organizations" := mkTable organizations_columns []]>
       (<["customers" := mkTable customers_columns []]>
          (delete "organizations" (delete "customers" (∅ : gmap string (@table_def nat))))))
  = inl (<["organizations" := mkTable organizations_columns []]>
           (<["customers" := mkTable customers_columns []]>
              (delete "organizations" (delete "customers" ∅)))).
Proof.
  refine (setupDatabase_idempotent ∅ _ _).
  apply setupDatabase_tables.
Defined.

(** *** extractTarGz *)

Lemma extract_dead evs : forall st e,
  unhandled st = Some e -> fold_left extract_step evs st = st.
Proof.
  induction evs as [|ev evs IH]; intros st e H; simpl; [reflexivity|].
  unfold extract_step at 2. rewrite H. eapply IH. exact H.
Qed.

Lemma extract_settled_run evs : forall st,
  (forall e, extracted (fold_left extract_step evs st) = Rejected e ->
     extracted st = Rejected e \/ In (TarError e) evs)
  /\ (extracted (fold_left extract_step evs st) = Fulfilled tt ->
      extracted st = Fulfilled tt \/ In TarFinish evs).
Proof.
  induction evs as [|ev evs IH]; intros st; simpl; [auto|].
  destruct (IH (extract_step st ev)) as [IHr IHf]. split.
  - intros e H. destruct (IHr e H) as [Hs|Hin]; [|auto].
    unfold extract_step in Hs. destruct (unhandled st); [auto|].
    destruct ev as [e1|e1|e1|]; simpl in Hs; auto;
      destruct (extracted st); simpl in Hs; try discriminate; auto.
    injection Hs as ->. auto.
  - intros H. destruct (IHf H) as [Hs|Hin]; [|auto].
    unfold extract_step in Hs. destruct (unhandled st); [auto|].
    destruct ev as [e1|e1|e1|]; simpl in Hs; auto;
      destruct (extracted st) as [|[]|]; simpl in Hs; try discriminate; auto.
Qed.

(** X25.  Only the tar extractor settles the promise of [extractTarGz]: it is
    rejected only with an error the extractor emitted and fulfilled only
    after the extractor finished.  An error of the source file or of
    gunzip has no listener: the promise stays as it was, for good. *)
Theorem extractTarGz_listens_to_tar_only :
  (forall evs e, extracted (extractTarGz evs) = Rejected e -> In (TarError e) evs)
  /\ (forall evs, extracted (extractTarGz evs) = Fulfilled tt -> In TarFinish evs)
  /\ (forall e rest,
        extracted (extractTarGz (ReadError e :: rest)) = Pending
        /\ extracted (extractTarGz (GunzipError e :: rest)) = Pending
        /\ unhandled (extractTarGz (ReadError e :: rest)) = Some e
        /\ unhandled (extractTarGz (GunzipError e :: rest)) = Some e).
Proof.
  split; [|split].
  - intros evs e H.
    destruct (proj1 (extract_settled_run evs extract_init) e H) as [Hs|Hin];
      [discriminate|exact Hin].
  - intros evs H.
    destruct (proj2 (extract_settled_run evs extract_init) H) as [Hs|Hin];
      [discriminate|exact Hin].
  - intros e rest. unfold extractTarGz. simpl.
    rewrite !(extract_dead rest _ e) by reflexivity. auto.
Qed.

Lemma extractTarGz_listens_to_tar_only_witness :
  In (TarError (External "TAR_BAD_ARCHIVE"))
     [TarError (External "TAR_BAD_ARCHIVE"); TarFinish].
Proof.
  refine (proj1 extractTarGz_listens_to_tar_only
            [TarError (External "TAR_BAD_ARCHIVE"); TarFinish]
            (External "TAR_BAD_ARCHIVE") _).
  reflexivity.
Defined.

End SchemaFacts.
